(** * Flicker timing core: a shallow embedding of [src/flicker_core.py]

    The Python module computes the timing schedules of visual flicker
    stimuli.  Its five functions are embedded below as executable Rocq
    functions and the statements of the specification are proved (or
    refuted) about them.

    Numbers.  Python [int] is [Z].  A finite Python [float] is given by its
    value, a rational [Q].  In [calculate_frequencies] and
    [generate_positions] the arithmetic on floats ([-], [+], [*], [/],
    comparisons, [int], [math.ceil], [math.sqrt]) is taken on these values
    without the rounding of double precision, and the numbers returned are
    compared with [Qeq].  In [calculate_cycle_params] and in the frame
    count of the SSVEP script a float is rounded to an integer right after
    a division or a product, so these operations are those of IEEE 754
    double precision, [Double.truediv] and [Double.mul]: correctly rounded,
    with overflow to an infinity, and with the exceptions [round] and [int]
    raise on an infinity or a NaN.

    Failure.  A Python call either returns a value or raises; the embedding
    returns [Ok v] or [Raise e] in the error monad [result]. *)

From Stdlib Require Import ZArith QArith Qround Qabs Qpower Qreduction.
From Stdlib Require Import List String Lia Lqa Bool Morphisms.
Import ListNotations.

Local Open Scope Z_scope.

(** ** Python run-time primitives used by the module *)

Module Py.

(** An f-string whose only placeholder is at its end: the literal text and
    the interpolated number. *)
Record fstring : Type := FString { text : string; hole : Q }.

(** The exceptions the module can raise.  [assert c, msg] raises
    [AssertionError msg]; [/] and [%] by zero raise [ZeroDivisionError];
    [math.sqrt] of a negative number, and [round] or [int] of a NaN, raise
    [ValueError]; [round] or [int] of an infinity raises [OverflowError]. *)
Inductive exn : Type :=
| AssertionError (msg : fstring)
| ZeroDivisionError
| ValueError
| OverflowError.

Inductive result (A : Type) : Type :=
| Ok (a : A)
| Raise (e : exn).

Arguments Ok {A} a.
Arguments Raise {A} e.

Definition bind {A B : Type} (m : result A) (k : A -> result B) : result B :=
  match m with
  | Ok a => k a
  | Raise e => Raise e
  end.

(** Comparisons of numbers: [a < b], [a <= b], [a == b]. *)
Definition ltb_float (a b : Q) : bool :=
  match (a ?= b)%Q with Lt => true | _ => false end.

Definition leb_float (a b : Q) : bool :=
  match (a ?= b)%Q with Gt => false | _ => true end.

Definition eqb_float (a b : Q) : bool :=
  match (a ?= b)%Q with Eq => true | _ => false end.

(** [assert c, msg] *)
Definition assert (c : bool) (msg : fstring) : result unit :=
  if c then Ok tt else Raise (AssertionError msg).

(** [range(a, b)]: the integers [a], [a+1], ..., [b-1]; empty when [b <= a]. *)
Definition range (a b : Z) : list Z :=
  map (fun i => a + Z.of_nat i) (seq 0 (Z.to_nat (b - a))).

(** [int(x)] on a float: truncation toward zero. *)
Definition int_of_float (x : Q) : Z := Z.quot (Qnum x) (Zpos (Qden x)).

(** [round(x)] with one argument: the nearest integer, a tie going to the
    even neighbour. *)
Definition round (x : Q) : Z :=
  let fl := Qfloor x in
  match (x - inject_Z fl ?= 1 # 2)%Q with
  | Lt => fl
  | Gt => fl + 1
  | Eq => if Z.even fl then fl else fl + 1
  end.

(** [math.ceil(x)] *)
Definition ceil (x : Q) : Z := Qceiling x.

(** [math.ceil(math.sqrt(n))] for an integer [n]: [math.sqrt] raises
    [ValueError] below zero; otherwise the least integer whose square is at
    least [n]. *)
Definition ceil_sqrt (n : Z) : result Z :=
  if n <? 0 then Raise ValueError
  else
    let s := Z.sqrt n in
    Ok (if s * s =? n then s else s + 1).

(** [a / b]: true division. *)
Definition truediv (a b : Q) : result Q :=
  if eqb_float b 0 then Raise ZeroDivisionError
  else Ok (a / b)%Q.

(** [a % b] on integers: the result has the sign of [b]. *)
Definition mod_ (a b : Z) : result Z :=
  if b =? 0 then Raise ZeroDivisionError
  else Ok (a mod b).

(** [l[:n]]: a negative [n] counts from the end. *)
Definition slice_to {A : Type} (l : list A) (n : Z) : list A :=
  if n <? 0 then firstn (Z.to_nat (Z.max 0 (Z.of_nat (List.length l) + n))) l
  else firstn (Z.to_nat n) l.

(** [len(l)] *)
Definition len {A : Type} (l : list A) : Z := Z.of_nat (List.length l).

(** [[f(x) for x in xs]] where [f] may raise. *)
Fixpoint comprehension {A B : Type} (f : A -> result B) (xs : list A)
  : result (list B) :=
  match xs with
  | [] => Ok []
  | x :: xs' =>
      bind (f x) (fun y =>
      bind (comprehension f xs') (fun ys => Ok (y :: ys)))
  end.

(** [for x in xs: body] threading the loop's variables [s]; [body] may
    raise, which ends the loop. *)
Fixpoint for_each {A S : Type} (xs : list A) (body : A -> S -> result S)
  (s : S) : result S :=
  match xs with
  | [] => Ok s
  | x :: xs' => bind (body x s) (for_each xs' body)
  end.

(** [for x in xs: if stop: break; body]: the loop leaves at the first
    iteration whose test [stop] holds of the loop's variables. *)
Fixpoint for_break {A S : Type} (xs : list A) (stop : S -> bool)
  (body : A -> S -> S) (s : S) : S :=
  match xs with
  | [] => s
  | x :: xs' => if stop s then s else for_break xs' stop body (body x s)
  end.

End Py.

(** ** Double precision

    A Python [float] is an IEEE 754 binary64 number: 53 bits of precision,
    exponents up to [2^1023], subnormals down to [2^-1074], infinities and
    NaN.  A finite one is given by its value; an operation returns the
    double nearest to the exact result, a tie going to the even mantissa,
    and an infinity once that is [2^1024] or more.  The sign of a zero is
    not kept: nothing below looks at it. *)

Module Double.

Import Py.

Inductive float : Type :=
| Finite (q : Q)
| Infinity (negative : bool)
| NaN.

Definition negative (x : Q) : bool := Qnum x <? 0.

(** [floor(log2 |x|)] for a non-zero [x]; zero is given the exponent below
    the smallest subnormal. *)
Definition exponent (x : Q) : Z :=
  if Qnum x =? 0 then -1075
  else
    let e := Z.log2 (Z.abs (Qnum x)) - Z.log2 (Zpos (Qden x)) in
    if Qle_bool (2 ^ e) (Qabs x) then e else e - 1.

(** The double nearest to [x]: [x] is rounded to a multiple of the unit in
    the last place of its binade, [2^(e - 52)], never finer than
    [2^-1074]. *)
Definition ulp_exponent (x : Q) : Z := Z.max (exponent x) (-1022) - 52.

Definition rounded (x : Q) : Q :=
  (inject_Z (round (x / 2 ^ ulp_exponent x)) * 2 ^ ulp_exponent x)%Q.

Definition nearest (x : Q) : float :=
  if Qle_bool (2 ^ 1024) (Qabs (rounded x)) then Infinity (negative x)
  else Finite (Qred (rounded x)).

(** [a / b] on floats: any division by zero raises. *)
Definition truediv (a b : float) : result float :=
  match b with
  | Finite q =>
      if eqb_float q 0 then Raise ZeroDivisionError
      else
        match a with
        | Finite p => Ok (nearest (p / q))
        | Infinity s => Ok (Infinity (xorb s (negative q)))
        | NaN => Ok NaN
        end
  | Infinity _ =>
      match a with
      | Finite _ => Ok (Finite 0)
      | _ => Ok NaN
      end
  | NaN => Ok NaN
  end.

(** [a * b] on floats. *)
Definition mul (a b : float) : float :=
  match a, b with
  | Finite p, Finite q => nearest (p * q)
  | Finite p, Infinity s | Infinity s, Finite p =>
      if eqb_float p 0 then NaN else Infinity (xorb s (negative p))
  | Infinity s, Infinity t => Infinity (xorb s t)
  | _, _ => NaN
  end.

(** [round(x)] on a float. *)
Definition round (x : float) : result Z :=
  match x with
  | Finite q => Ok (Py.round q)
  | Infinity _ => Raise OverflowError
  | NaN => Raise ValueError
  end.

(** [int(x)] on a float. *)
Definition int (x : float) : result Z :=
  match x with
  | Finite q => Ok (int_of_float q)
  | Infinity _ => Raise OverflowError
  | NaN => Raise ValueError
  end.

(** The conversion of an [int] operand of a float operation. *)
Definition of_int (z : Z) : result float :=
  match nearest (inject_Z z) with
  | Infinity _ => Raise OverflowError
  | x => Ok x
  end.

End Double.

Coercion Double.Finite : Q >-> Double.float.
Bind Scope Q_scope with Double.float.

(** ** Library routines the module imports *)

Module Numpy.

(** [np.roll(a, shift)] on a one-dimensional array: the element at index
    [i] moves to index [(i + shift) mod len(a)]; elements pushed past the
    end come back at the front. *)
Definition roll {A : Type} (a : list A) (shift : Z) : list A :=
  let n := Z.of_nat (List.length a) in
  if n =? 0 then a
  else
    let k := shift mod n in
    skipn (Z.to_nat (n - k)) a ++ firstn (Z.to_nat (n - k)) a.

End Numpy.

Module Scipy.

Import Py.

(** The default feedback taps per register width (the first entries of the
    library's table). *)
Definition mls_taps (nbits : Z) : option (list Z) :=
  match nbits with
  | 2 => Some [1]
  | 3 => Some [2]
  | 4 => Some [3]
  | 5 => Some [3]
  | 6 => Some [5]
  | 7 => Some [6]
  | _ => None
  end.

(** The shift register is a ring buffer [state] read at [idx]; [seq] is the
    output written so far. *)
Record register : Type := MkRegister { state : list Z; idx : Z; seq : list Z }.

Definition get (l : list Z) (i : Z) : Z := nth (Z.to_nat i) l 0.

Definition set (l : list Z) (i : Z) (v : Z) : list Z :=
  firstn (Z.to_nat i) l ++ v :: skipn (S (Z.to_nat i)) l.

(** One turn of the generator: emit the bit under [idx], xor the tapped
    bits into it, store it back and advance [idx] round the ring. *)
Definition shift (nbits : Z) (taps : list Z) (g : register) : register :=
  let feedback := get (state g) (idx g) in
  let seq' := seq g ++ [feedback] in
  let feedback :=
    fold_left (fun fb t => Z.lxor fb (get (state g) ((t + idx g) mod nbits)))
      taps feedback in
  MkRegister (set (state g) (idx g) feedback) ((idx g + 1) mod nbits) seq'.

Fixpoint run (n : nat) (nbits : Z) (taps : list Z) (g : register) : register :=
  match n with
  | O => g
  | S n' => run n' nbits taps (shift nbits taps g)
  end.

(** Modelled from the spec: [scipy.signal.max_len_seq] is imported by
    [flicker_core.py] and its code is not part of the repository.  The
    specification describes it as a fixed-tap linear-feedback construction
    of length [2^nbits - 1]; the model is the library's generator: a
    register of [nbits] ones, the default taps of the width, [2^nbits - 1]
    turns, returning the output and the final register contents. *)
Definition max_len_seq (nbits : Z) : result (list Z * list Z) :=
  match mls_taps nbits with
  | None => Raise ValueError
  | Some taps =>
      let n_max := 2 ^ nbits - 1 in
      let g := run (Z.to_nat n_max) nbits taps
                 (MkRegister (repeat 1 (Z.to_nat nbits)) 0 []) in
      Ok (seq g, Numpy.roll (state g) (- idx g))
  end.

End Scipy.

Import Py.

Declare Scope py_scope.
Delimit Scope py_scope with py.
Notation "x <- m ;; k" := (bind m (fun x => k))
  (at level 61, m at next level, right associativity) : py_scope.
Notation "' pat <- m ;; k" := (bind m (fun x => match x with pat => k end))
  (at level 61, pat pattern, m at next level, right associativity) : py_scope.
Notation "m ;;; k" := (bind m (fun _ => k))
  (at level 61, right associativity) : py_scope.
Local Open Scope py_scope.

(** ** The functions of [flicker_core.py] *)

Module FlickerCore.

(** [calculate_frequencies(refresh_rate, min_frames_per_cycle, n_stim)] *)
Definition calculate_frequencies (refresh_rate : Q) (min_frames_per_cycle n_stim : Z)
  : result (list Q) :=
  assert (ltb_float 0 refresh_rate)
    (FString "refresh_rate must be bigger than zero. Provided value: "
       refresh_rate) ;;;
  assert (0 <? min_frames_per_cycle)
    (FString "min_frames_per_cycle must be bigger than zero. Provided value: "
       (inject_Z min_frames_per_cycle)) ;;;
  assert (0 <? n_stim)
    (FString "n_stim must be bigger than zero. Provided value: "
       (inject_Z n_stim)) ;;;
  assert (leb_float (inject_Z n_stim)
            (refresh_rate - inject_Z min_frames_per_cycle + 1))
    (FString "Too many stimuli provided for given refresh_rate and min_frames_per_cycle. Maximum number of allowed stimuli is "
       (refresh_rate - inject_Z min_frames_per_cycle + 1)) ;;;
  let divisors := range min_frames_per_cycle (int_of_float refresh_rate + 1) in
  stable_freqs <- comprehension (fun d => truediv refresh_rate (inject_Z d)) divisors ;;
  Ok (slice_to stable_freqs n_stim).

(** [calculate_cycle_params(refresh_rate, freq, duty_cycle)]; [round]
    returns an [int], which [int] leaves alone and which the product with
    [duty_cycle] converts back to a float. *)
Definition calculate_cycle_params (refresh_rate freq duty_cycle : Double.float)
  : result (Z * Z) :=
  q <- Double.truediv refresh_rate freq ;;
  frames_per_cycle <- Double.round q ;;
  frames <- Double.of_int frames_per_cycle ;;
  on_frames <- Double.round (Double.mul frames duty_cycle) ;;
  let on_frames := Z.max 1 (Z.min on_frames (frames_per_cycle - 1)) in
  Ok (frames_per_cycle, on_frames).

(** [generate_frame_pattern(frames_per_cycle, on_frames, total_frames)] *)
Definition generate_frame_pattern (frames_per_cycle on_frames total_frames : Z)
  : result (list Z) :=
  for_each (range 0 total_frames)
    (fun frameN pattern =>
       cycle_pos <- mod_ frameN frames_per_cycle ;;
       Ok (pattern ++ [if cycle_pos <? on_frames then 1 else 0]))
    [].

(** [generate_positions(n_stim)] *)
Definition generate_positions (n_stim : Z) : result (list (Q * Q)) :=
  cols <- ceil_sqrt n_stim ;;
  q <- truediv (inject_Z n_stim) (inject_Z cols) ;;
  let rows := ceil q in
  spacing_x <- (if 1 <? cols then truediv 1 (inject_Z (cols - 1)) else Ok 0%Q) ;;
  spacing_y <- (if 1 <? rows then truediv 1 (inject_Z (rows - 1)) else Ok 0%Q) ;;
  Ok (fold_left
        (fun positions r =>
           for_break (range 0 cols)
             (fun positions => len positions =? n_stim)
             (fun c positions =>
                let x := ((inject_Z c - inject_Z (cols - 1) / 2) * spacing_x)%Q in
                let y := ((inject_Z (rows - 1) / 2 - inject_Z r) * spacing_y)%Q in
                positions ++ [(x, y)])
             positions)
        (range 0 rows) []).

(** [calculate_m_sequences(n_stim)]; the call of [logging.info] writes to
    the log only and is left out. *)
Definition calculate_m_sequences (n_stim : Z) : result (list (list Z)) :=
  let nbits := 6 in
  let shift_step := 4 in
  '(base_seq, state) <- Scipy.max_len_seq nbits ;;
  Ok (fold_left
        (fun patterns s =>
           let shift := s * shift_step in
           let shifted_seq := Numpy.roll base_seq shift in
           patterns ++ [shifted_seq])
        (range 0 n_stim) []).

End FlickerCore.

Import FlickerCore.

(** ** The reference pattern of the tests and the schedule of the SSVEP script *)

Module Itertools.

(** [list(itertools.islice(itertools.cycle(iterable), stop))]: [cycle]
    hands out the elements of [iterable], keeps them, and replays them for
    ever (nothing at all when there are none); [islice] stops after [stop]
    elements and refuses a negative [stop].  [rest] is what is left of the
    pass under way, [saved] the elements kept for the next ones. *)
Fixpoint take_cycle {A : Type} (stop : nat) (rest saved : list A) : list A :=
  match stop with
  | O => []
  | S stop' =>
      match rest with
      | x :: rest' => x :: take_cycle stop' rest' saved
      | [] =>
          match saved with
          | x :: rest' => x :: take_cycle stop' rest' saved
          | [] => []
          end
      end
  end.

Definition islice_cycle {A : Type} (iterable : list A) (stop : Z)
  : result (list A) :=
  if stop <? 0 then Raise ValueError
  else Ok (take_cycle (Z.to_nat stop) iterable iterable).

End Itertools.

Module TestFlickerCoreParam.

(** [generate_onoff_sequence(frames_per_cycle, on_frames, total_frames)] of
    [tests/test_flicker_core_param.py]; [[v] * k] is empty for [k <= 0]. *)
Definition generate_onoff_sequence (frames_per_cycle on_frames total_frames : Z)
  : result (list Z) :=
  let pattern :=
    repeat 1 (Z.to_nat on_frames)
    ++ repeat 0 (Z.to_nat (frames_per_cycle - on_frames)) in
  Itertools.islice_cycle pattern total_frames.

End TestFlickerCoreParam.

Module RunFlickerExperimentSsvep.

(** What [run_flicker_experiment_ssvep.py] computes before it enters its
    frame loop, as a function of its settings [REFRESH_RATE],
    [MIN_FRAMES_PER_CYCLE], [N_STIM], [DUTY_CYCLE] and [DURATION_S]: the
    frequencies, the positions, the cycle of each frequency, and the frame
    pattern of each cycle over [int(REFRESH_RATE * DURATION_S)] frames.
    [calculate_frequencies] keeps each frequency as the quotient it is the
    rounding of; [calculate_cycle_params] receives the double.  The window,
    the stimulus objects and the log are left out. *)
Definition schedule (REFRESH_RATE : Q) (MIN_FRAMES_PER_CYCLE N_STIM : Z)
  (DUTY_CYCLE DURATION_S : Double.float)
  : result (list (Q * Q) * list (list Z)) :=
  freqs <- calculate_frequencies REFRESH_RATE MIN_FRAMES_PER_CYCLE N_STIM ;;
  positions <- generate_positions N_STIM ;;
  cycles <- comprehension
              (fun freq =>
                 calculate_cycle_params REFRESH_RATE (Double.nearest freq)
                   DUTY_CYCLE)
              freqs ;;
  total_frames <- Double.int (Double.mul REFRESH_RATE DURATION_S) ;;
  patterns <- comprehension
                (fun '(frames_per_cycle, on_frames) =>
                   generate_frame_pattern frames_per_cycle on_frames total_frames)
                cycles ;;
  Ok (positions, patterns).

End RunFlickerExperimentSsvep.

(** ** Vocabulary of the statements *)

(** The value the fourth assertion of [calculate_frequencies] compares with
    [n_stim] and prints in its message. *)
Definition divisor_count (refresh_rate : Q) (min_frames_per_cycle : Z) : Q :=
  (refresh_rate - inject_Z min_frames_per_cycle + 1)%Q.

(** The exception of that assertion. *)
Definition too_many_stimuli (refresh_rate : Q) (min_frames_per_cycle : Z) : exn :=
  AssertionError
    (FString "Too many stimuli provided for given refresh_rate and min_frames_per_cycle. Maximum number of allowed stimuli is "
       (divisor_count refresh_rate min_frames_per_cycle)).



(** [k] is an integer nearest to [x]. *)
Definition nearest_integer (x : Q) (k : Z) : Prop :=
  (Qabs (inject_Z k - x) <= 1 # 2)%Q.

(** [k] clamped to [[lo, hi]]; the lower bound wins when the interval is
    empty. *)
Definition clamp (lo hi k : Z) : Z := Z.max lo (Z.min k hi).

(** The value of frame [i] in a cycle of [frames_per_cycle] frames, the
    first [on_frames] of them ON. *)
Definition frame_value (frames_per_cycle on_frames i : Z) : Z :=
  if i mod frames_per_cycle <? on_frames then 1 else 0.

(** The layout grid: spacing along an axis of [k] cells, and the position
    of the cell at row [r], column [c] of a grid of [rows] by [cols]. *)
Definition spacing (k : Z) : Q :=
  if 1 <? k then (1 / inject_Z (k - 1))%Q else 0%Q.

Definition grid_position (rows cols r c : Z) : Q * Q :=
  (((inject_Z c - inject_Z (cols - 1) / 2) * spacing cols)%Q,
   ((inject_Z (rows - 1) / 2 - inject_Z r) * spacing rows)%Q).

(** All cells of the grid, row after row. *)
Definition row_major (rows cols : Z) : list (Q * Q) :=
  flat_map (fun r => map (grid_position rows cols r) (range 0 cols))
    (range 0 rows).

(** [cols] is the ceiling of the square root of [n]; [rows] is the ceiling
    of [n / cols]. *)
Definition is_ceil_sqrt (n cols : Z) : Prop :=
  0 <= cols /\ (cols - 1) * (cols - 1) < n <= cols * cols.

Definition is_ceil_quotient (n cols rows : Z) : Prop :=
  (rows - 1) * cols < n <= rows * cols.

(** Coordinates are compared as numbers. *)
Definition same_position (p q : Q * Q) : Prop :=
  (fst p == fst q)%Q /\ (snd p == snd q)%Q.

Definition occurs (p : Q * Q) (l : list (Q * Q)) : Prop :=
  Exists (same_position p) l.

(** A layout is symmetric about both axes when the mirror images of each
    of its positions are positions of the layout, and centred at the origin
    when its coordinates sum to zero. *)
Definition symmetric_about_axes (l : list (Q * Q)) : Prop :=
  Forall (fun p => occurs ((- fst p)%Q, snd p) l /\ occurs (fst p, (- snd p)%Q) l) l.

Definition centred_at_origin (l : list (Q * Q)) : Prop :=
  (fold_right (fun p s => fst p + s) 0 l == 0)%Q /\
  (fold_right (fun p s => snd p + s) 0 l == 0)%Q.

(** Bit sequences: equality test, the window of [k] consecutive bits of
    the periodic sequence [s] that starts at position [i], the windows of
    one period, and the number of windows equal to [w]. *)
Definition is_bit (b : Z) : Prop := b = 0 \/ b = 1.

Fixpoint bits_eqb (u v : list Z) : bool :=
  match u, v with
  | [], [] => true
  | a :: u', b :: v' => (a =? b) && bits_eqb u' v'
  | _, _ => false
  end.

Definition window (s : list Z) (k i : nat) : list Z :=
  map (fun j => nth ((i + j) mod List.length s) s 0) (List.seq 0 k).

Definition windows (s : list Z) (k : nat) : list (list Z) :=
  map (window s k) (List.seq 0 (List.length s)).

Definition occurrences (w : list Z) (ws : list (list Z)) : nat :=
  List.length (filter (bits_eqb w) ws).

(** Two of the first [n_stim] stimuli get the same rotation modulo the
    length of the sequence. *)
Definition rotations_collide (n_stim shift_step length : Z) : Prop :=
  exists s t : Z,
    0 <= s < t /\ t < n_stim /\
    (s * shift_step) mod length = (t * shift_step) mod length.

(** The number of ON frames of a pattern, and the number of places at
    which two patterns agree. *)
Definition on_count (pattern : list Z) : nat :=
  List.length (filter (fun v => v =? 1) pattern).

Definition agreements (u v : list Z) : nat :=
  List.length (filter (fun p => fst p =? snd p) (combine u v)).

(** The cycle of [d] frames at a duty cycle (the product is a double
    before it is rounded to an integer), and the pattern of a cycle over
    [total_frames] frames. *)
Definition cycle_of_divisor (duty_cycle : Q) (d : Z) : Z * Z :=
  (d, clamp 1 (d - 1) (round (Double.rounded (inject_Z d * duty_cycle)))).

Definition pattern_of_cycle (total_frames : Z) (cycle : Z * Z) : list Z :=
  map (frame_value (fst cycle) (snd cycle)) (range 0 total_frames).

(** * Facts about the primitives *)

Section Comparisons.

Variables a b : Q.

Lemma ltb_float_lt : ltb_float a b = true <-> (a < b)%Q.
Proof.
  unfold ltb_float. rewrite Qlt_alt.
  destruct (a ?= b)%Q; split; intro H; congruence.
Qed.

Lemma leb_float_le : leb_float a b = true <-> (a <= b)%Q.
Proof.
  unfold leb_float. rewrite Qle_alt.
  destruct (a ?= b)%Q; split; intro H; congruence.
Qed.

Lemma eqb_float_eq : eqb_float a b = true <-> (a == b)%Q.
Proof.
  unfold eqb_float. rewrite Qeq_alt.
  destruct (a ?= b)%Q; split; intro H; congruence.
Qed.

End Comparisons.

Lemma leb_float_false (a b : Q) : leb_float a b = false <-> (b < a)%Q.
Proof.
  rewrite <- not_true_iff_false, leb_float_le. split.
  - apply Qnot_le_lt.
  - apply Qlt_not_le.
Qed.

Lemma eqb_float_false (a b : Q) : ~ (a == b)%Q -> eqb_float a b = false.
Proof.
  intro H. apply not_true_iff_false. now rewrite eqb_float_eq.
Qed.

Section Range.

Lemma range_length (a b : Z) : List.length (range a b) = Z.to_nat (b - a).
Proof. unfold range. now rewrite length_map, length_seq. Qed.

Lemma range_nth (a b d : Z) (i : nat) :
  (i < Z.to_nat (b - a))%nat -> nth i (range a b) d = a + Z.of_nat i.
Proof.
  intro H. unfold range.
  rewrite nth_indep with (d' := a + Z.of_nat 0)
    by now rewrite length_map, length_seq.
  rewrite (map_nth (fun i => a + Z.of_nat i)), seq_nth by assumption.
  reflexivity.
Qed.

Lemma In_range (a b x : Z) : In x (range a b) <-> a <= x < b.
Proof.
  unfold range. rewrite in_map_iff. split.
  - intros (i & <- & Hi). apply in_seq in Hi. lia.
  - intro H. exists (Z.to_nat (x - a)). split; [lia|].
    apply in_seq. lia.
Qed.

Lemma firstn_seq_le (k : nat) : forall s n : nat,
  (k <= n)%nat -> firstn k (List.seq s n) = List.seq s k.
Proof.
  induction k as [|k IH]; intros s n H; [reflexivity|].
  destruct n as [|n]; [lia|]. cbn. f_equal. apply IH. lia.
Qed.

Lemma In_firstn {A : Type} (x : A) (k : nat) (l : list A) :
  In x (firstn k l) -> In x l.
Proof.
  intro H. rewrite <- (firstn_skipn k l). apply in_or_app. now left.
Qed.

Lemma range_firstn (a b : Z) (k : nat) :
  Z.of_nat k <= b - a -> firstn k (range a b) = range a (a + Z.of_nat k).
Proof.
  intro H. unfold range. rewrite firstn_map, firstn_seq_le by lia.
  do 2 f_equal. lia.
Qed.

End Range.

Section Conversions.

Lemma int_of_float_floor (x : Q) : (0 <= x)%Q -> int_of_float x = Qfloor x.
Proof.
  destruct x as [p q]. unfold Qle, int_of_float, Qfloor. cbn. intro H.
  apply Z.quot_div_nonneg; lia.
Qed.

Lemma inject_Z_le_floor (k : Z) (x : Q) : (inject_Z k <= x)%Q -> k <= Qfloor x.
Proof.
  intro H. rewrite <- (Qfloor_Z k). now apply Qfloor_resp_le.
Qed.

Lemma inject_Z_pos (k : Z) : 0 < k -> (0 < inject_Z k)%Q.
Proof. intro H. now rewrite (Zlt_Qlt 0 k) in H. Qed.

Lemma inject_Z_nonzero (k : Z) : k <> 0 -> ~ (inject_Z k == 0)%Q.
Proof.
  intros Hk H. apply Hk. now apply (proj1 (inject_Z_injective k 0)).
Qed.

End Conversions.

Lemma comprehension_truediv (r : Q) (ds : list Z) :
  Forall (fun d => d <> 0) ds ->
  comprehension (fun d => truediv r (inject_Z d)) ds
  = Ok (map (fun d => (r / inject_Z d)%Q) ds).
Proof.
  induction 1 as [|d ds Hd _ IH]; [reflexivity|].
  cbn [comprehension map]. unfold truediv at 1.
  rewrite eqb_float_false by now apply inject_Z_nonzero.
  cbn [bind]. now rewrite IH.
Qed.

(** * The frequency selector *)

Section Frequencies.

Variable r : Q.
Variables m n : Z.

Hypothesis r_pos : (0 < r)%Q.
Hypothesis m_pos : 0 < m.
Hypothesis n_pos : 0 < n.

Lemma enough_divisors :
  (inject_Z n <= divisor_count r m)%Q -> m + n <= Qfloor r + 1.
Proof.
  unfold divisor_count. intro H.
  assert (Hle : (inject_Z (m + n - 1) <= r)%Q).
  { unfold Zminus. rewrite !inject_Z_plus, inject_Z_opp.
    change (inject_Z 1) with 1%Q.
    apply Qplus_le_l with (z := (- inject_Z m + 1)%Q).
    ring_simplify. ring_simplify in H.
    setoid_replace (-1 * inject_Z m + r + 1)%Q with (r - inject_Z m + 1)%Q by ring.
    exact H. }
  apply inject_Z_le_floor in Hle. lia.
Qed.

(** With the four assertions passed the function returns the quotients of
    the refresh rate by [m], [m+1], ..., [m+n-1]. *)
Lemma calculate_frequencies_value :
  (inject_Z n <= divisor_count r m)%Q ->
  calculate_frequencies r m n
  = Ok (map (fun d => (r / inject_Z d)%Q) (range m (m + n))).
Proof.
  intro H. pose proof (enough_divisors H) as Hfl.
  unfold calculate_frequencies, assert.
  rewrite (proj2 (ltb_float_lt 0 r) r_pos).
  rewrite (proj2 (Z.ltb_lt 0 m) m_pos), (proj2 (Z.ltb_lt 0 n) n_pos).
  fold (divisor_count r m).
  rewrite (proj2 (leb_float_le _ _) H). cbn [bind].
  rewrite int_of_float_floor by now apply Qlt_le_weak.
  rewrite comprehension_truediv.
  - cbn [bind]. unfold slice_to.
    rewrite (proj2 (Z.ltb_ge n 0)) by lia.
    rewrite firstn_map, range_firstn by lia.
    do 3 f_equal. lia.
  - apply Forall_forall. intros d Hd. apply In_range in Hd. lia.
Qed.

(** The fourth assertion is the only one that can fail here, and it fails
    exactly below the printed bound. *)
Lemma calculate_frequencies_raise :
  (divisor_count r m < inject_Z n)%Q ->
  calculate_frequencies r m n = Raise (too_many_stimuli r m).
Proof.
  intro H. unfold calculate_frequencies, assert.
  rewrite (proj2 (ltb_float_lt 0 r) r_pos).
  rewrite (proj2 (Z.ltb_lt 0 m) m_pos), (proj2 (Z.ltb_lt 0 n) n_pos).
  fold (divisor_count r m).
  now rewrite (proj2 (leb_float_false _ _) H).
Qed.


Lemma quotient_decreasing (d e : Z) :
  0 < d < e -> (r / inject_Z e < r / inject_Z d)%Q.
Proof.
  intros [Hd He]. unfold Qdiv.
  apply Qmult_lt_l; [exact r_pos|].
  assert (Hd' : (0 < inject_Z d)%Q) by now apply inject_Z_pos.
  assert (He' : (0 < inject_Z e)%Q) by (apply inject_Z_pos; lia).
  apply (proj1 (Qinv_lt_contravar _ _ Hd' He')).
  now rewrite <- Zlt_Qlt.
Qed.


End Frequencies.



(** C3: for [r > 0], [m > 0], [n > 0] the call fails exactly when
    [r - m + 1 < n], with the assertion error whose message ends in the
    bound [r - m + 1]: a positive stimulus count is accepted exactly when it
    is at most the number printed.  Otherwise the call succeeds.  The call
    with refresh rate 60, minimum 3 frames per cycle and 59 stimuli fails. *)
Theorem calculate_frequencies_range_error (r : Q) (m n : Z) :
  (0 < r)%Q -> 0 < m -> 0 < n ->
  ((r - inject_Z m + 1 < inject_Z n)%Q <->
     calculate_frequencies r m n = Raise (too_many_stimuli r m)) /\
  (~ (r - inject_Z m + 1 < inject_Z n)%Q <->
     exists freqs, calculate_frequencies r m n = Ok freqs) /\
  (forall e : exn, calculate_frequencies r m n = Raise e ->
     exists msg : fstring,
       e = AssertionError msg /\
       forall n' : Z, 0 < n' ->
         ((inject_Z n' <= hole msg)%Q <->
            exists freqs, calculate_frequencies r m n' = Ok freqs)) /\
  calculate_frequencies 60 3 59 = Raise (too_many_stimuli 60 3).
Proof.
  intros Hr Hm Hn.
  assert (Hiff : forall n' : Z, 0 < n' ->
            ((inject_Z n' <= divisor_count r m)%Q <->
               exists freqs, calculate_frequencies r m n' = Ok freqs)).
  { intros n' Hn'. split.
    - intro H. rewrite (calculate_frequencies_value r m n' Hr Hm Hn' H). eauto.
    - intros [freqs Hf]. apply Qnot_lt_le. intro H.
      rewrite (calculate_frequencies_raise r m n' Hr Hm Hn' H) in Hf. discriminate. }
  fold (divisor_count r m).
  repeat split.
  - now apply calculate_frequencies_raise.
  - intro H. apply Qnot_le_lt. intro Hle.
    rewrite (calculate_frequencies_value r m n Hr Hm Hn Hle) in H. discriminate.
  - intro H. apply Hiff; [exact Hn|]. now apply Qnot_lt_le.
  - intros H Hlt. apply (Hiff n Hn) in H. now apply (Qle_not_lt _ _ H).
  - intros e He.
    destruct (Qlt_le_dec (divisor_count r m) (inject_Z n)) as [Hlt|Hle].
    + rewrite (calculate_frequencies_raise r m n Hr Hm Hn Hlt) in He.
      injection He as <-. eexists. split; [reflexivity|]. exact Hiff.
    + rewrite (calculate_frequencies_value r m n Hr Hm Hn Hle) in He. discriminate.
Qed.

Lemma calculate_frequencies_range_error_witness :
  (60 - inject_Z 3 + 1 < inject_Z 59)%Q /\
  calculate_frequencies 60 3 59 = Raise (too_many_stimuli 60 3).
Proof.
  split.
  - reflexivity.
  - destruct (calculate_frequencies_range_error 60 3 59) as [H _];
      [reflexivity | lia | lia |].
    apply H. reflexivity.
Defined.

(** * The pattern expander *)

Section Pattern.

Variables frames_per_cycle on_frames : Z.

Hypothesis cycle_nonzero : frames_per_cycle <> 0.

Lemma pattern_loop (frames : list Z) : forall pattern : list Z,
  for_each frames
    (fun frameN pattern =>
       cycle_pos <- mod_ frameN frames_per_cycle ;;
       Ok (pattern ++ [if cycle_pos <? on_frames then 1 else 0]))
    pattern
  = Ok (pattern ++ map (frame_value frames_per_cycle on_frames) frames).
Proof.
  induction frames as [|i frames IH]; intro pattern.
  - cbn. now rewrite app_nil_r.
  - cbn [for_each map]. unfold mod_ at 1.
    rewrite (proj2 (Z.eqb_neq _ _) cycle_nonzero). cbn [bind].
    rewrite IH, <- app_assoc. reflexivity.
Qed.

Lemma generate_frame_pattern_value (total_frames : Z) :
  generate_frame_pattern frames_per_cycle on_frames total_frames
  = Ok (map (frame_value frames_per_cycle on_frames) (range 0 total_frames)).
Proof. unfold generate_frame_pattern. now rewrite pattern_loop. Qed.

End Pattern.

(** C4: for [frames_per_cycle >= 1], any [on_frames] and
    [total_frames >= 0] (a multiple of the cycle length or not),
    [generate_frame_pattern] returns a list of length [total_frames] whose
    element at each index [i] is 1 if [i mod frames_per_cycle < on_frames]
    and 0 otherwise; for (6, 3, 12) it is [1,1,1,0,0,0,1,1,1,0,0,0]. *)
Theorem generate_frame_pattern_correct (frames_per_cycle on_frames total_frames : Z) :
  1 <= frames_per_cycle -> 0 <= total_frames ->
  (exists pattern : list Z,
     generate_frame_pattern frames_per_cycle on_frames total_frames = Ok pattern /\
     len pattern = total_frames /\
     forall i : Z, 0 <= i < total_frames ->
       nth_error pattern (Z.to_nat i)
       = Some (if i mod frames_per_cycle <? on_frames then 1 else 0)) /\
  generate_frame_pattern 6 3 12 = Ok [1; 1; 1; 0; 0; 0; 1; 1; 1; 0; 0; 0].
Proof.
  intros Hc Ht. split; [|reflexivity].
  eexists. split.
  - apply generate_frame_pattern_value. lia.
  - split.
    + unfold len. rewrite length_map, range_length. lia.
    + intros i Hi.
      rewrite nth_error_map.
      rewrite (nth_error_nth' _ 0) by (rewrite range_length; lia).
      rewrite range_nth by lia. cbn [option_map]. unfold frame_value.
      now replace (0 + Z.of_nat (Z.to_nat i)) with i by lia.
Qed.

Lemma generate_frame_pattern_correct_witness :
  exists pattern : list Z,
    generate_frame_pattern 4 1 6 = Ok pattern /\
    len pattern = 6 /\
    forall i : Z, 0 <= i < 6 ->
      nth_error pattern (Z.to_nat i) = Some (if i mod 4 <? 1 then 1 else 0).
Proof.
  apply (generate_frame_pattern_correct 4 1 6); lia.
Defined.

(** * Rounding to the nearest integer *)

Section Rounding.

Variable x : Q.

Lemma round_nearest : nearest_integer x (round x).
Proof.
  unfold nearest_integer, round.
  pose proof (Qfloor_le x) as Hlo. pose proof (Qlt_floor x) as Hhi.
  rewrite inject_Z_plus in Hhi. change (inject_Z 1) with 1%Q in Hhi.
  apply Qabs_Qle_condition.
  destruct (x - inject_Z (Qfloor x) ?= 1 # 2)%Q eqn:Hc.
  - apply Qeq_alt in Hc.
    destruct (Z.even (Qfloor x)).
    + split; lra.
    + rewrite inject_Z_plus. change (inject_Z 1) with 1%Q. split; lra.
  - apply Qlt_alt in Hc. split; lra.
  - apply Qgt_alt in Hc. rewrite inject_Z_plus.
    change (inject_Z 1) with 1%Q. split; lra.
Qed.

(** A tie goes to the even neighbour. *)
Lemma round_tie (k : Z) :
  (x == inject_Z k + (1 # 2))%Q -> round x = if Z.even k then k else k + 1.
Proof.
  intro H. unfold round.
  assert (Hfl : Qfloor x = k).
  { assert (Hk : k <= Qfloor x) by (apply inject_Z_le_floor; lra).
    assert (Hk' : Qfloor x < k + 1).
    { rewrite Zlt_Qlt. pose proof (Qfloor_le x). rewrite inject_Z_plus.
      change (inject_Z 1) with 1%Q. lra. }
    lia. }
  rewrite Hfl.
  replace (x - inject_Z k ?= 1 # 2)%Q with Eq; [reflexivity|].
  symmetry. apply Qeq_alt. lra.
Qed.

End Rounding.

Lemma clamp_proper (lo hi k : Z) :
  lo <= hi ->
  lo <= clamp lo hi k <= hi /\
  (k < lo -> clamp lo hi k = lo) /\
  (hi < k -> clamp lo hi k = hi) /\
  (lo <= k <= hi -> clamp lo hi k = k).
Proof. unfold clamp. lia. Qed.


(** * The layout generator *)

Section Loops.

Context {A B : Type}.
Variable n : nat.

(** The inner loop appends images of the loop's values until the list has
    [n] elements. *)
Lemma for_break_fill (g : A -> B) (xs : list A) : forall acc : list B,
  (List.length acc <= n)%nat ->
  for_break xs (fun acc => len acc =? Z.of_nat n) (fun x acc => acc ++ [g x]) acc
  = acc ++ map g (firstn (n - List.length acc) xs).
Proof.
  induction xs as [|x xs IH]; intros acc Hacc.
  - cbn. now rewrite firstn_nil, app_nil_r.
  - cbn [for_break]. unfold len at 1.
    destruct (Z.eqb_spec (Z.of_nat (List.length acc)) (Z.of_nat n)) as [E|E].
    + replace (n - List.length acc)%nat with O by lia.
      cbn. now rewrite app_nil_r.
    + rewrite IH by (rewrite length_app; cbn; lia).
      rewrite length_app. cbn [List.length].
      replace (n - List.length acc)%nat
        with (S (n - (List.length acc + 1))) by lia.
      cbn [firstn map]. now rewrite <- app_assoc.
Qed.

(** The two nested loops produce the first [n] cells in row-major order. *)
Lemma nested_loops_fill (g : A -> A -> B) (cs : list A) (rs : list A) :
  forall acc : list B,
  (List.length acc <= n)%nat ->
  fold_left
    (fun acc r =>
       for_break cs (fun acc => len acc =? Z.of_nat n)
         (fun c acc => acc ++ [g r c]) acc)
    rs acc
  = acc ++ firstn (n - List.length acc) (flat_map (fun r => map (g r) cs) rs).
Proof.
  induction rs as [|r rs IH]; intros acc Hacc.
  - cbn. now rewrite firstn_nil, app_nil_r.
  - cbn [fold_left flat_map].
    rewrite (for_break_fill (g r)) by assumption.
    rewrite IH.
    + rewrite <- app_assoc. f_equal.
      rewrite firstn_app, firstn_map. f_equal.
      rewrite !length_app, !length_map, length_firstn. f_equal. lia.
    + rewrite length_app, length_map, length_firstn. lia.
Qed.

Lemma flat_map_grid_length (g : A -> A -> B) (cs rs : list A) :
  List.length (flat_map (fun r => map (g r) cs) rs)
  = (List.length rs * List.length cs)%nat.
Proof.
  induction rs as [|r rs IH]; [reflexivity|].
  cbn [flat_map]. rewrite length_app, length_map, IH. reflexivity.
Qed.

Lemma flat_map_grid_nth (g : A -> A -> B) (cs : list A) (b : nat) (d : A) :
  (b < List.length cs)%nat ->
  forall (rs : list A) (a : nat),
  (a < List.length rs)%nat ->
  nth_error (flat_map (fun r => map (g r) cs) rs) (a * List.length cs + b)
  = Some (g (nth a rs d) (nth b cs d)).
Proof.
  intros Hb rs. induction rs as [|r rs IH]; intros a Ha; [cbn in Ha; lia|].
  cbn [flat_map]. destruct a as [|a].
  - rewrite nth_error_app1 by (rewrite length_map; lia).
    cbn [Nat.mul Nat.add nth]. rewrite nth_error_map.
    now rewrite (nth_error_nth' cs d).
  - rewrite nth_error_app2 by (rewrite length_map; lia).
    rewrite length_map.
    replace (S a * List.length cs + b - List.length cs)%nat
      with (a * List.length cs + b)%nat by lia.
    cbn [nth]. apply IH. cbn in Ha. lia.
Qed.

End Loops.

Section GridShape.

Variable n : Z.
Hypothesis n_pos : 0 < n.

Lemma ceil_sqrt_value :
  exists cols : Z, ceil_sqrt n = Ok cols /\ 0 < cols /\ is_ceil_sqrt n cols.
Proof.
  unfold ceil_sqrt. rewrite (proj2 (Z.ltb_ge n 0)) by lia.
  pose proof (Z.sqrt_spec n ltac:(lia)) as Hs.
  assert (Hp : 0 < Z.sqrt n) by (apply Z.sqrt_pos; lia).
  eexists. split; [reflexivity|].
  unfold is_ceil_sqrt. unfold Z.succ in Hs.
  destruct (Z.eqb_spec (Z.sqrt n * Z.sqrt n) n) as [E|E].
  - nia.
  - replace (Z.sqrt n + 1 - 1) with (Z.sqrt n) by lia. nia.
Qed.

Lemma ceil_quotient_value (cols : Z) :
  0 < cols ->
  exists q : Q, truediv (inject_Z n) (inject_Z cols) = Ok q /\
    0 < ceil q /\ is_ceil_quotient n cols (ceil q).
Proof.
  intro Hc. unfold truediv.
  rewrite eqb_float_false by (apply inject_Z_nonzero; lia).
  eexists. split; [reflexivity|].
  assert (Hcq : (0 < inject_Z cols)%Q) by now apply inject_Z_pos.
  pose proof (Qle_ceiling (inject_Z n / inject_Z cols)) as Hup.
  pose proof (Qceiling_lt (inject_Z n / inject_Z cols)) as Hlo.
  unfold ceil. set (rows := Qceiling (inject_Z n / inject_Z cols)) in *.
  assert (Hn : n <= rows * cols).
  { apply Z.nlt_ge. intro H. rewrite Zlt_Qlt, inject_Z_mult in H.
    apply Qlt_shift_div_l in H; [|exact Hcq].
    now apply (Qlt_not_le _ _ H). }
  assert (Hn' : (rows - 1) * cols < n).
  { apply Z.nle_gt. intro H. rewrite Zle_Qle, inject_Z_mult in H.
    apply Qle_shift_div_r in H; [|exact Hcq].
    now apply (Qlt_not_le _ _ Hlo). }
  unfold is_ceil_quotient. split; [nia | lia].
Qed.

End GridShape.

Lemma spacing_value (k : Z) :
  (if 1 <? k then truediv 1 (inject_Z (k - 1)) else Ok 0%Q) = Ok (spacing k).
Proof.
  unfold spacing. destruct (Z.ltb_spec 1 k) as [H|H]; [|reflexivity].
  unfold truediv. now rewrite eqb_float_false by (apply inject_Z_nonzero; lia).
Qed.

Lemma positions_loops (n rows cols : Z) :
  0 <= n ->
  fold_left
    (fun positions r =>
       for_break (range 0 cols)
         (fun positions => len positions =? n)
         (fun c positions =>
            let x := ((inject_Z c - inject_Z (cols - 1) / 2) * spacing cols)%Q in
            let y := ((inject_Z (rows - 1) / 2 - inject_Z r) * spacing rows)%Q in
            positions ++ [(x, y)])
         positions)
    (range 0 rows) []
  = firstn (Z.to_nat n) (row_major rows cols).
Proof.
  intro Hn. remember (Z.to_nat n) as k eqn:Hk.
  assert (n = Z.of_nat k) as -> by lia. clear Hk Hn.
  etransitivity.
  - apply (nested_loops_fill k (grid_position rows cols)
             (range 0 cols) (range 0 rows) []).
    cbn. lia.
  - cbn [List.length app]. now rewrite Nat.sub_0_r.
Qed.

(** For a positive count the call returns the first [n_stim] cells of the
    grid whose shape the two ceilings fix. *)
Lemma generate_positions_value (n : Z) :
  0 < n ->
  exists cols rows : Z,
    0 < cols /\ 0 < rows /\
    is_ceil_sqrt n cols /\ is_ceil_quotient n cols rows /\
    generate_positions n = Ok (firstn (Z.to_nat n) (row_major rows cols)).
Proof.
  intro Hn.
  destruct (ceil_sqrt_value n Hn) as (cols & Hcols & Hc & Hsq).
  destruct (ceil_quotient_value n Hn cols Hc) as (q & Hq & Hr & Hrows).
  exists cols, (ceil q). repeat (split; [assumption|]).
  unfold generate_positions. rewrite Hcols. cbn [bind].
  rewrite Hq. cbn [bind]. rewrite !spacing_value. cbn [bind].
  now rewrite positions_loops by lia.
Qed.

Lemma row_major_length (rows cols : Z) :
  0 <= rows -> 0 <= cols -> len (row_major rows cols) = rows * cols.
Proof.
  intros Hr Hc. unfold len, row_major.
  rewrite flat_map_grid_length, !range_length. lia.
Qed.

Lemma row_major_nth (rows cols i : Z) :
  0 < cols -> 0 <= i < rows * cols ->
  nth_error (row_major rows cols) (Z.to_nat i)
  = Some (grid_position rows cols (i / cols) (i mod cols)).
Proof.
  intros Hc Hi.
  pose proof (Z.div_mod i cols ltac:(lia)) as Hdm.
  pose proof (Z.mod_pos_bound i cols Hc) as Hm.
  assert (Hd : 0 <= i / cols < rows).
  { split; [apply Z.div_pos; lia|]. apply Z.div_lt_upper_bound; lia. }
  unfold row_major.
  replace (Z.to_nat i)
    with (Z.to_nat (i / cols) * List.length (range 0 cols) + Z.to_nat (i mod cols))%nat
    by (rewrite range_length; nia).
  rewrite (flat_map_grid_nth _ _ _ 0) by (rewrite range_length; lia).
  rewrite !range_nth by lia.
  do 2 f_equal; lia.
Qed.

Lemma In_row_major (rows cols : Z) (p : Q * Q) :
  In p (row_major rows cols) ->
  exists r c : Z, 0 <= r < rows /\ 0 <= c < cols /\ p = grid_position rows cols r c.
Proof.
  unfold row_major. rewrite in_flat_map.
  intros (r & Hr & Hp). apply in_map_iff in Hp. destruct Hp as (c & <- & Hc).
  apply In_range in Hr. apply In_range in Hc.
  exists r, c. repeat split; lia.
Qed.

Section Bounds.

(** Along an axis of [k] cells the coordinate of cell [c] stays within a
    half on either side of the origin. *)
Lemma axis_coordinate_bound (k c : Z) :
  0 <= c < k ->
  (- (1 # 2) <= (inject_Z c - inject_Z (k - 1) / 2) * spacing k <= 1 # 2)%Q.
Proof.
  intro Hc. unfold spacing. destruct (Z.ltb_spec 1 k) as [Hk|Hk].
  - assert (HK : (0 < inject_Z (k - 1))%Q) by (apply inject_Z_pos; lia).
    assert (Hlo : (0 <= inject_Z c / inject_Z (k - 1))%Q).
    { apply Qle_shift_div_l; [exact HK|]. rewrite Qmult_0_l.
      rewrite (Zle_Qle 0 c) in Hc. tauto. }
    assert (Hhi : (inject_Z c / inject_Z (k - 1) <= 1)%Q).
    { apply Qle_shift_div_r; [exact HK|]. rewrite Qmult_1_l.
      rewrite <- Zle_Qle. lia. }
    setoid_replace ((inject_Z c - inject_Z (k - 1) / 2) * (1 / inject_Z (k - 1)))%Q
      with (inject_Z c / inject_Z (k - 1) - (1 # 2))%Q.
    + split; lra.
    + field. intro H. rewrite H in HK. now apply (Qlt_irrefl 0).
  - rewrite Qmult_0_r. split; lra.
Qed.

Lemma grid_position_bound (rows cols r c : Z) :
  0 <= r < rows -> 0 <= c < cols ->
  let p := grid_position rows cols r c in
  (- (1 # 2) <= fst p <= 1 # 2)%Q /\ (- (1 # 2) <= snd p <= 1 # 2)%Q.
Proof.
  intros Hr Hc. cbn. split.
  - now apply axis_coordinate_bound.
  - pose proof (axis_coordinate_bound rows r Hr) as H.
    setoid_replace ((inject_Z (rows - 1) / 2 - inject_Z r) * spacing rows)%Q
      with (- ((inject_Z r - inject_Z (rows - 1) / 2) * spacing rows))%Q by ring.
    split; lra.
Qed.

End Bounds.

(** C8: for [n_stim >= 1] the call emits exactly [n_stim] positions, in
    row-major order, of the grid with [cols = ceil(sqrt(n_stim))] columns
    and [rows = ceil(n_stim / cols)] rows: the position of index [i] is that
    of row [i / cols], column [i mod cols], namely
    [x = (c - (cols-1)/2) * spacing_x], [y = ((rows-1)/2 - r) * spacing_y]
    with a spacing of [1/(cols-1)] (0 for a single column) and likewise for
    the rows; the list is the grid cut after [n_stim] cells.  For 9 stimuli
    it is the 3 by 3 grid, centred at the origin and symmetric about both
    axes. *)
Theorem generate_positions_correct (n_stim : Z) :
  1 <= n_stim ->
  (exists (cols rows : Z) (positions : list (Q * Q)),
     is_ceil_sqrt n_stim cols /\
     is_ceil_quotient n_stim cols rows /\
     generate_positions n_stim = Ok positions /\
     len positions = n_stim /\
     positions = firstn (Z.to_nat n_stim) (row_major rows cols) /\
     forall i : Z, 0 <= i < n_stim ->
       nth_error positions (Z.to_nat i)
       = Some (grid_position rows cols (i / cols) (i mod cols))) /\
  (exists positions : list (Q * Q),
     generate_positions 9 = Ok positions /\
     positions = row_major 3 3 /\
     Forall2 same_position positions
       [ (- (1 # 2), 1 # 2); (0, 1 # 2); (1 # 2, 1 # 2);
         (- (1 # 2), 0); (0, 0); (1 # 2, 0);
         (- (1 # 2), - (1 # 2)); (0, - (1 # 2)); (1 # 2, - (1 # 2)) ]%Q /\
     centred_at_origin positions /\
     symmetric_about_axes positions).
Proof.
  intro Hn. split.
  - destruct (generate_positions_value n_stim ltac:(lia))
      as (cols & rows & Hc & Hr & Hsq & Hrows & Hval).
    assert (Hlen : (Z.to_nat n_stim <= List.length (row_major rows cols))%nat).
    { pose proof (row_major_length rows cols ltac:(lia) ltac:(lia)) as H.
      unfold len in H. unfold is_ceil_quotient in Hrows. lia. }
    exists cols, rows, (firstn (Z.to_nat n_stim) (row_major rows cols)).
    repeat (split; [assumption|]). split; [|split; [reflexivity|]].
    + unfold len. rewrite length_firstn. lia.
    + intros i Hi. rewrite nth_error_firstn.
      destruct (Nat.ltb_spec (Z.to_nat i) (Z.to_nat n_stim)) as [_|H]; [|lia].
      apply row_major_nth; [exact Hc|].
      unfold is_ceil_quotient in Hrows. lia.
  - eexists. split; [vm_compute; reflexivity|].
    split; [vm_compute; reflexivity|].
    split; [|split].
    + repeat (constructor; [split; vm_compute; reflexivity|]). constructor.
    + split; vm_compute; reflexivity.
    + repeat (constructor;
        [split;
         repeat (first [ apply Exists_cons_hd; split; vm_compute; reflexivity
                       | apply Exists_cons_tl ]) |]).
      constructor.
Qed.

Lemma generate_positions_correct_witness :
  exists (cols rows : Z) (positions : list (Q * Q)),
    is_ceil_sqrt 5 cols /\
    is_ceil_quotient 5 cols rows /\
    generate_positions 5 = Ok positions /\
    len positions = 5 /\
    positions = firstn (Z.to_nat 5) (row_major rows cols) /\
    forall i : Z, 0 <= i < 5 ->
      nth_error positions (Z.to_nat i)
      = Some (grid_position rows cols (i / cols) (i mod cols)).
Proof.
  apply (generate_positions_correct 5). lia.
Defined.




(** C10: for [n_stim >= 1] every coordinate pair of the returned layout
    has both coordinates between -1/2 and 1/2, whatever the shape of the
    grid and however full its last row. *)
Theorem generate_positions_bounds (n_stim : Z) :
  1 <= n_stim ->
  exists positions : list (Q * Q),
    generate_positions n_stim = Ok positions /\
    Forall (fun p => (- (1 # 2) <= fst p <= 1 # 2)%Q /\
                     (- (1 # 2) <= snd p <= 1 # 2)%Q) positions.
Proof.
  intro Hn.
  destruct (generate_positions_value n_stim ltac:(lia))
    as (cols & rows & _ & _ & _ & _ & Hval).
  eexists. split; [exact Hval|].
  apply Forall_forall. intros p Hp.
  apply In_firstn, In_row_major in Hp.
  destruct Hp as (r & c & Hr & Hc & ->).
  now apply grid_position_bound.
Qed.

Lemma generate_positions_bounds_witness :
  exists positions : list (Q * Q),
    generate_positions 7 = Ok positions /\
    Forall (fun p => (- (1 # 2) <= fst p <= 1 # 2)%Q /\
                     (- (1 # 2) <= snd p <= 1 # 2)%Q) positions.
Proof.
  apply (generate_positions_bounds 7). lia.
Defined.

(** * The sequence generator *)

Lemma bits_eqb_eq (u : list Z) : forall v : list Z, bits_eqb u v = true <-> u = v.
Proof.
  induction u as [|a u IH]; intros [|b v]; cbn; try (split; congruence).
  rewrite andb_true_iff, Z.eqb_eq, IH. split.
  - intros [-> ->]. reflexivity.
  - intro H. injection H as -> ->. split; reflexivity.
Qed.

Section Roll.

Context {A : Type}.
Variable a : list A.
Variable shift : Z.

Lemma roll_length : List.length (Numpy.roll a shift) = List.length a.
Proof.
  unfold Numpy.roll. destruct (Z.eqb_spec (Z.of_nat (List.length a)) 0); [reflexivity|].
  rewrite length_app, length_skipn, length_firstn.
  pose proof (Z.mod_pos_bound shift (Z.of_nat (List.length a)) ltac:(lia)).
  lia.
Qed.

(** The element at index [i] moves to index [(i + shift) mod len(a)]. *)
Lemma roll_nth (i : Z) :
  0 <= i < len a ->
  nth_error (Numpy.roll a shift) (Z.to_nat ((i + shift) mod len a))
  = nth_error a (Z.to_nat i).
Proof.
  unfold len, Numpy.roll. intro Hi.
  set (n := Z.of_nat (List.length a)) in *.
  destruct (Z.eqb_spec n 0) as [E|E]; [lia|].
  pose proof (Z.mod_pos_bound shift n ltac:(lia)) as Hk.
  rewrite <- Zplus_mod_idemp_r.
  set (k := shift mod n) in *.
  destruct (Z_lt_le_dec i (n - k)) as [Hlt|Hge].
  - rewrite Z.mod_small by lia.
    rewrite nth_error_app2 by (rewrite length_skipn; lia).
    rewrite length_skipn, nth_error_firstn.
    replace (Z.to_nat (i + k) - (List.length a - Z.to_nat (n - k)))%nat
      with (Z.to_nat i) by lia.
    destruct (Nat.ltb_spec (Z.to_nat i) (Z.to_nat (n - k))); [reflexivity | lia].
  - replace ((i + k) mod n) with (i + k - n)
      by (apply Z.mod_unique with (q := 1); lia).
    rewrite nth_error_app1 by (rewrite length_skipn; lia).
    rewrite nth_error_skipn. f_equal. lia.
Qed.

(** Rotating by [shift] is rotating by [shift] modulo the length. *)
Lemma roll_mod : Numpy.roll a (shift mod len a) = Numpy.roll a shift.
Proof.
  unfold len, Numpy.roll.
  destruct (Z.eqb_spec (Z.of_nat (List.length a)) 0); [reflexivity|].
  now rewrite Z.mod_mod.
Qed.

End Roll.

Lemma append_loop {A B : Type} (g : A -> B) (xs : list A) : forall acc : list B,
  fold_left (fun acc x => acc ++ [g x]) xs acc = acc ++ map g xs.
Proof.
  induction xs as [|x xs IH]; intro acc; cbn.
  - now rewrite app_nil_r.
  - now rewrite IH, <- app_assoc.
Qed.

(** The base sequence of the module: 6 bits of register, 63 bits of
    output. *)
Lemma max_len_seq_6 :
  exists base state : list Z,
    Scipy.max_len_seq 6 = Ok (base, state) /\ len base = 2 ^ 6 - 1.
Proof. do 2 eexists. split; vm_compute; reflexivity. Qed.

Lemma calculate_m_sequences_value (n_stim : Z) (base state : list Z) :
  Scipy.max_len_seq 6 = Ok (base, state) ->
  calculate_m_sequences n_stim
  = Ok (map (fun s => Numpy.roll base (s * 4)) (range 0 n_stim)).
Proof.
  intro H. unfold calculate_m_sequences. rewrite H. cbn [bind].
  now rewrite (append_loop (fun s => Numpy.roll base (s * 4))).
Qed.

(** C7: the base sequence of bit depth 6 (what the first stimulus of
    [calculate_m_sequences] receives) has length [2^6 - 1 = 63], and every
    non-zero window of 6 consecutive bits occurs exactly once among the 63
    windows of one period. *)
Theorem base_sequence_maximal_length :
  exists base state : list Z,
    Scipy.max_len_seq 6 = Ok (base, state) /\
    calculate_m_sequences 1 = Ok [base] /\
    len base = 2 ^ 6 - 1 /\ len base = 63 /\
    Forall is_bit base /\
    forall w : list Z,
      List.length w = 6%nat -> Forall is_bit w -> w <> repeat 0 6 ->
      occurrences w (windows base 6) = 1%nat.
Proof.
  do 2 eexists. split; [vm_compute; reflexivity|].
  split; [vm_compute; reflexivity|].
  split; [vm_compute; reflexivity|].
  split; [vm_compute; reflexivity|].
  split.
  - repeat (constructor; [first [left; reflexivity | right; reflexivity]|]). constructor.
  - intros w Hlen Hbits Hnz.
    do 7 (destruct w as [|? w]; try discriminate Hlen).
    repeat match goal with
           | H : Forall _ (_ :: _) |- _ => inversion H; subst; clear H
           end.
    unfold is_bit in *.
    repeat match goal with
           | H : _ \/ _ |- _ => destruct H; subst
           end;
    first [ exfalso; apply Hnz; reflexivity | vm_compute; reflexivity ].
Qed.

Lemma base_sequence_maximal_length_witness :
  exists base : list Z,
    calculate_m_sequences 1 = Ok [base] /\
    occurrences [1; 0; 1; 1; 0; 0] (windows base 6) = 1%nat.
Proof.
  destruct base_sequence_maximal_length
    as (base & state & _ & Hone & _ & _ & _ & Hw).
  exists base. split; [exact Hone|].
  refine (Hw [1; 0; 1; 1; 0; 0] _ _ _).
  - reflexivity.
  - repeat (constructor; [first [left; reflexivity | right; reflexivity]|]). constructor.
  - discriminate.
Defined.

Lemma nth_error_map_range {B : Type} (g : Z -> B) (a b i : Z) :
  0 <= i < b - a ->
  nth_error (map g (range a b)) (Z.to_nat i) = Some (g (a + i)).
Proof.
  intro Hi. rewrite nth_error_map.
  rewrite (nth_error_nth' _ 0) by (rewrite range_length; lia).
  rewrite range_nth by lia. cbn. do 2 f_equal. lia.
Qed.

Section Rotations.

(** With a step of 4 and a length of 63 the first 63 rotation amounts are
    pairwise distinct; from the 64th stimulus on they repeat. *)
Lemma rotations_distinct (n_stim : Z) :
  n_stim <= 63 -> ~ rotations_collide n_stim 4 63.
Proof.
  intros Hn (s & t & Hst & Ht & Heq).
  pose proof (Z.div_mod (s * 4) 63 ltac:(lia)) as Hs.
  pose proof (Z.div_mod (t * 4) 63 ltac:(lia)) as Ht'.
  rewrite Heq in Hs.
  lia.
Qed.

Lemma rotations_repeat (n_stim : Z) :
  63 < n_stim -> rotations_collide n_stim 4 63.
Proof.
  intro Hn. exists 0, 63. repeat split; lia.
Qed.

Variables base state : list Z.
Hypothesis base_def : Scipy.max_len_seq 6 = Ok (base, state).

Lemma base_length : len base = 63.
Proof.
  vm_compute in base_def. injection base_def as <- _. reflexivity.
Qed.

(** Different rotations of the base sequence are different sequences. *)
Lemma base_rotations_differ (a b : Z) :
  0 <= a < 63 -> 0 <= b < 63 -> a <> b ->
  Numpy.roll base a <> Numpy.roll base b.
Proof.
  intros Ha Hb Hab.
  vm_compute in base_def. injection base_def as <- _.
  match goal with
  | |- Numpy.roll ?l _ <> _ =>
      assert (Hall :
        forallb (fun a =>
          forallb (fun b => (a =? b) || negb (bits_eqb (Numpy.roll l a) (Numpy.roll l b)))
            (range 0 63)) (range 0 63) = true) by (vm_compute; reflexivity)
  end.
  rewrite forallb_forall in Hall.
  specialize (Hall a (proj2 (In_range 0 63 a) Ha)).
  rewrite forallb_forall in Hall.
  specialize (Hall b (proj2 (In_range 0 63 b) Hb)).
  apply orb_true_iff in Hall. destruct Hall as [Hall|Hall].
  - apply Z.eqb_eq in Hall. contradiction.
  - intro Heq. apply bits_eqb_eq in Heq. rewrite Heq in Hall. discriminate.
Qed.

End Rotations.

(** C6 as stated fails: with 64 stimuli, stimulus 0 and stimulus 63 have
    the same rotation modulo 63, yet the call returns, and it hands both of
    them the same sequence. *)
Lemma calculate_m_sequences_collision_returned :
  rotations_collide 64 4 63 /\
  exists (patterns : list (list Z)) (shifted_seq : list Z),
    calculate_m_sequences 64 = Ok patterns /\
    nth_error patterns 0 = Some shifted_seq /\
    nth_error patterns 63 = Some shifted_seq.
Proof.
  split.
  - apply rotations_repeat. lia.
  - do 2 eexists. split; [vm_compute; reflexivity|].
    split; vm_compute; reflexivity.
Qed.

(** C6, amended: for every [n_stim] the call returns (it has no failure
    path, for a collision or otherwise) [max(0, n_stim)] sequences;
    stimulus [s] receives the base sequence rotated by [s * 4] modulo its
    length 63, bit [i] of the base moving to place [(i + s * 4) mod 63].  Up
    to 63 stimuli the rotation amounts are pairwise distinct modulo 63 and
    the sequences pairwise different; beyond, stimuli [s] and [s + 63] have
    the same rotation and receive the same sequence. *)
Theorem calculate_m_sequences_rotations (n_stim : Z) :
  exists (base state : list Z) (patterns : list (list Z)),
    Scipy.max_len_seq 6 = Ok (base, state) /\
    len base = 63 /\
    calculate_m_sequences n_stim = Ok patterns /\
    len patterns = Z.max 0 n_stim /\
    (forall s : Z, 0 <= s < n_stim ->
       exists shifted_seq : list Z,
         nth_error patterns (Z.to_nat s) = Some shifted_seq /\
         shifted_seq = Numpy.roll base ((s * 4) mod 63) /\
         forall i : Z, 0 <= i < 63 ->
           nth_error shifted_seq (Z.to_nat ((i + s * 4) mod 63))
           = nth_error base (Z.to_nat i)) /\
    (n_stim <= 63 ->
       ~ rotations_collide n_stim 4 63 /\
       forall s t : Z, 0 <= s < t -> t < n_stim ->
         nth_error patterns (Z.to_nat s) <> nth_error patterns (Z.to_nat t)) /\
    (63 < n_stim ->
       rotations_collide n_stim 4 63 /\
       forall s : Z, 0 <= s -> s + 63 < n_stim ->
         nth_error patterns (Z.to_nat s) = nth_error patterns (Z.to_nat (s + 63))).
Proof.
  destruct max_len_seq_6 as (base & state & Hbase & _).
  pose proof (base_length base state Hbase) as Hlen.
  pose proof (calculate_m_sequences_value n_stim base state Hbase) as Hval.
  set (patterns := map (fun s => Numpy.roll base (s * 4)) (range 0 n_stim)) in *.
  assert (Hnth : forall s : Z, 0 <= s < n_stim ->
            nth_error patterns (Z.to_nat s) = Some (Numpy.roll base ((s * 4) mod 63))).
  { intros s Hs. unfold patterns. rewrite nth_error_map_range by lia.
    cbn [Z.add]. now rewrite <- Hlen, roll_mod. }
  exists base, state, patterns.
  repeat (split; [assumption|]).
  split; [|split; [|split]].
  - unfold len, patterns. rewrite length_map, range_length. lia.
  - intros s Hs. eexists. split; [apply Hnth; exact Hs|].
    split; [reflexivity|].
    intros i Hi. rewrite <- Hlen, roll_mod. rewrite <- Hlen in Hi.
    now apply roll_nth.
  - intro Hn. split; [now apply rotations_distinct|].
    intros s t Hst Ht. rewrite !Hnth by lia.
    intro Heq. injection Heq as Heq. revert Heq.
    apply (base_rotations_differ base state Hbase).
    + apply Z.mod_pos_bound. lia.
    + apply Z.mod_pos_bound. lia.
    + intro Heq. apply (rotations_distinct n_stim Hn).
      exists s, t. repeat split; lia.
  - intro Hn. split; [now apply rotations_repeat|].
    intros s Hs Hs'. rewrite !Hnth by lia. do 2 f_equal.
    replace ((s + 63) * 4) with (s * 4 + 4 * 63) by lia.
    now rewrite Z.mod_add by lia.
Qed.

Lemma calculate_m_sequences_rotations_witness :
  exists (base : list Z) (patterns : list (list Z)),
    calculate_m_sequences 9 = Ok patterns /\
    ~ rotations_collide 9 4 63 /\
    nth_error patterns (Z.to_nat 2) = Some (Numpy.roll base ((2 * 4) mod 63)) /\
    nth_error patterns (Z.to_nat 2) <> nth_error patterns (Z.to_nat 5).
Proof.
  destruct (calculate_m_sequences_rotations 9)
    as (base & state & patterns & _ & _ & Hval & _ & Hrot & Hdistinct & _).
  exists base, patterns. split; [exact Hval|].
  destruct (Hdistinct ltac:(lia)) as [Hno Hdiff].
  split; [exact Hno|]. split.
  - destruct (Hrot 2 ltac:(lia)) as (shifted_seq & Hs & -> & _). exact Hs.
  - apply Hdiff; lia.
Defined.

(** * Further properties of the frequency selector *)

(** Which assertion refuses which arguments. *)
Lemma refused_parameters (r : Q) (m n : Z) :
  ((r <= 0)%Q ->
     calculate_frequencies r m n
     = Raise (AssertionError
         (FString "refresh_rate must be bigger than zero. Provided value: " r))) /\
  ((0 < r)%Q -> m <= 0 ->
     calculate_frequencies r m n
     = Raise (AssertionError
         (FString "min_frames_per_cycle must be bigger than zero. Provided value: "
            (inject_Z m)))) /\
  ((0 < r)%Q -> 0 < m -> n <= 0 ->
     calculate_frequencies r m n
     = Raise (AssertionError
         (FString "n_stim must be bigger than zero. Provided value: "
            (inject_Z n)))).
Proof.
  unfold calculate_frequencies, assert. repeat split.
  - intro Hr.
    replace (ltb_float 0 r) with false; [reflexivity|].
    symmetry. apply not_true_iff_false. rewrite ltb_float_lt.
    now apply Qle_not_lt.
  - intros Hr Hm. rewrite (proj2 (ltb_float_lt 0 r) Hr).
    now rewrite (proj2 (Z.ltb_ge 0 m)) by lia.
  - intros Hr Hm Hn. rewrite (proj2 (ltb_float_lt 0 r) Hr).
    rewrite (proj2 (Z.ltb_lt 0 m) Hm).
    now rewrite (proj2 (Z.ltb_ge 0 n)) by lia.
Qed.

(** X1: the three parameter assertions are checked in the order of the
    parameters, and each reports the value it refused. *)
Theorem calculate_frequencies_parameter_errors (r : Q) (m n : Z) :
  ((r <= 0)%Q ->
     calculate_frequencies r m n
     = Raise (AssertionError
         (FString "refresh_rate must be bigger than zero. Provided value: " r))) /\
  ((0 < r)%Q -> m <= 0 ->
     calculate_frequencies r m n
     = Raise (AssertionError
         (FString "min_frames_per_cycle must be bigger than zero. Provided value: "
            (inject_Z m)))) /\
  ((0 < r)%Q -> 0 < m -> n <= 0 ->
     calculate_frequencies r m n
     = Raise (AssertionError
         (FString "n_stim must be bigger than zero. Provided value: "
            (inject_Z n)))).
Proof.
  unfold calculate_frequencies, assert. repeat split.
  - intro Hr.
    replace (ltb_float 0 r) with false; [reflexivity|].
    symmetry. apply not_true_iff_false. rewrite ltb_float_lt.
    now apply Qle_not_lt.
  - intros Hr Hm. rewrite (proj2 (ltb_float_lt 0 r) Hr).
    now rewrite (proj2 (Z.ltb_ge 0 m)) by lia.
  - intros Hr Hm Hn. rewrite (proj2 (ltb_float_lt 0 r) Hr).
    rewrite (proj2 (Z.ltb_lt 0 m) Hm).
    now rewrite (proj2 (Z.ltb_ge 0 n)) by lia.
Qed.

Lemma calculate_frequencies_parameter_errors_witness :
  calculate_frequencies (-60) 3 5
  = Raise (AssertionError
      (FString "refresh_rate must be bigger than zero. Provided value: " (-60))) /\
  calculate_frequencies 60 0 5
  = Raise (AssertionError
      (FString "min_frames_per_cycle must be bigger than zero. Provided value: "
         (inject_Z 0))) /\
  calculate_frequencies 60 3 (-10)
  = Raise (AssertionError
      (FString "n_stim must be bigger than zero. Provided value: "
         (inject_Z (-10)))).
Proof.
  destruct (calculate_frequencies_parameter_errors (-60) 3 5) as (H1 & _ & _).
  destruct (calculate_frequencies_parameter_errors 60 0 5) as (_ & H2 & _).
  destruct (calculate_frequencies_parameter_errors 60 3 (-10)) as (_ & _ & H3).
  split; [|split].
  - apply H1. unfold Qle. simpl. lia.
  - apply H2; [reflexivity | lia].
  - apply H3; [reflexivity | lia | lia].
Defined.


Lemma quotient_antitone (r : Q) (d e : Z) :
  (0 < r)%Q -> 0 < d <= e -> (r / inject_Z e <= r / inject_Z d)%Q.
Proof.
  intros Hr [Hd He]. destruct (Z.eq_dec d e) as [->|Hne].
  - apply Qle_refl.
  - apply Qlt_le_weak, quotient_decreasing; [exact Hr | lia].
Qed.

(** X3: every frequency returned lies between 1 Hz and the cap
    [refresh_rate / min_frames_per_cycle], and the first one is the cap. *)
Theorem calculate_frequencies_bounds (r : Q) (m n : Z) (freqs : list Q) :
  calculate_frequencies r m n = Ok freqs ->
  Forall (fun f => (1 <= f <= r / inject_Z m)%Q) freqs /\
  nth_error freqs 0 = Some (r / inject_Z m)%Q.
Proof.
  intro H.
  destruct (Qlt_le_dec 0 r) as [Hr|Hr].
  2: { rewrite (proj1 (refused_parameters r m n) Hr) in H.
       discriminate. }
  destruct (Z_lt_le_dec 0 m) as [Hm|Hm].
  2: { destruct (refused_parameters r m n) as (_ & H2 & _).
       rewrite (H2 Hr Hm) in H. discriminate. }
  destruct (Z_lt_le_dec 0 n) as [Hn|Hn].
  2: { destruct (refused_parameters r m n) as (_ & _ & H3).
       rewrite (H3 Hr Hm Hn) in H. discriminate. }
  destruct (Qlt_le_dec (divisor_count r m) (inject_Z n)) as [Hlt|Hle].
  { rewrite (calculate_frequencies_raise r m n Hr Hm Hn Hlt) in H. discriminate. }
  pose proof (enough_divisors r m n Hle) as Hfl.
  rewrite (calculate_frequencies_value r m n Hr Hm Hn Hle) in H.
  injection H as <-. split.
  - apply Forall_forall. intros f Hf.
    apply in_map_iff in Hf. destruct Hf as (d & <- & Hd).
    apply In_range in Hd. split.
    + apply Qle_shift_div_l; [apply inject_Z_pos; lia|].
      rewrite Qmult_1_l.
      apply Qle_trans with (inject_Z (Qfloor r)); [|apply Qfloor_le].
      rewrite <- Zle_Qle. lia.
    + apply quotient_antitone; [exact Hr | lia].
  - change 0%nat with (Z.to_nat 0).
    rewrite (nth_error_map_range (fun d => (r / inject_Z d)%Q)) by lia.
    now rewrite Z.add_0_r.
Qed.

Lemma calculate_frequencies_bounds_witness :
  Forall (fun f => (1 <= f <= 60 / inject_Z 3)%Q) [60 # 3; 60 # 4; 60 # 5]%Q /\
  nth_error [60 # 3; 60 # 4; 60 # 5]%Q 0 = Some (60 / inject_Z 3)%Q.
Proof.
  apply (calculate_frequencies_bounds 60 3 3). reflexivity.
Defined.

(** X4: asking for fewer stimuli keeps the first frequencies: the result
    for [n] stimuli is the first [n] entries of the result for any larger
    accepted count. *)
Theorem calculate_frequencies_prefix (r : Q) (m n n' : Z) (freqs' : list Q) :
  0 < n <= n' ->
  calculate_frequencies r m n' = Ok freqs' ->
  calculate_frequencies r m n = Ok (firstn (Z.to_nat n) freqs').
Proof.
  intros Hn H.
  destruct (Qlt_le_dec 0 r) as [Hr|Hr].
  2: { rewrite (proj1 (refused_parameters r m n') Hr) in H.
       discriminate. }
  destruct (Z_lt_le_dec 0 m) as [Hm|Hm].
  2: { destruct (refused_parameters r m n') as (_ & H2 & _).
       rewrite (H2 Hr Hm) in H. discriminate. }
  destruct (Qlt_le_dec (divisor_count r m) (inject_Z n')) as [Hlt|Hle].
  { rewrite (calculate_frequencies_raise r m n' Hr Hm ltac:(lia) Hlt) in H.
    discriminate. }
  rewrite (calculate_frequencies_value r m n' Hr Hm ltac:(lia) Hle) in H.
  injection H as <-.
  assert (Hle' : (inject_Z n <= divisor_count r m)%Q).
  { apply Qle_trans with (inject_Z n'); [|exact Hle]. rewrite <- Zle_Qle. lia. }
  rewrite (calculate_frequencies_value r m n Hr Hm ltac:(lia) Hle').
  rewrite firstn_map, range_firstn by lia.
  do 3 f_equal. lia.
Qed.

Lemma calculate_frequencies_prefix_witness :
  calculate_frequencies 60 3 2
  = Ok (firstn (Z.to_nat 2) [60 # 3; 60 # 4; 60 # 5; 60 # 6]%Q).
Proof.
  apply (calculate_frequencies_prefix 60 3 2 4); [lia | reflexivity].
Defined.

(** What a returned list says about the arguments. *)
Lemma calculate_frequencies_returned (r : Q) (m n : Z) (freqs : list Q) :
  calculate_frequencies r m n = Ok freqs ->
  (0 < r)%Q /\ 0 < m /\ 0 < n /\ m + n <= Qfloor r + 1 /\
  freqs = map (fun d => (r / inject_Z d)%Q) (range m (m + n)).
Proof.
  intro H.
  destruct (Qlt_le_dec 0 r) as [Hr|Hr].
  2: { rewrite (proj1 (refused_parameters r m n) Hr) in H.
       discriminate. }
  destruct (Z_lt_le_dec 0 m) as [Hm|Hm].
  2: { destruct (refused_parameters r m n) as (_ & H2 & _).
       rewrite (H2 Hr Hm) in H. discriminate. }
  destruct (Z_lt_le_dec 0 n) as [Hn|Hn].
  2: { destruct (refused_parameters r m n) as (_ & _ & H3).
       rewrite (H3 Hr Hm Hn) in H. discriminate. }
  destruct (Qlt_le_dec (divisor_count r m) (inject_Z n)) as [Hlt|Hle].
  { rewrite (calculate_frequencies_raise r m n Hr Hm Hn Hlt) in H. discriminate. }
  rewrite (calculate_frequencies_value r m n Hr Hm Hn Hle) in H.
  injection H as <-.
  repeat (split; [assumption|]). split; [|reflexivity].
  now apply enough_divisors.
Qed.

(** * Order and rounding to the nearest integer *)

Section RoundFacts.

Lemma round_between (x : Q) : Qfloor x <= round x <= Qfloor x + 1.
Proof.
  unfold round. destruct (x - inject_Z (Qfloor x) ?= 1 # 2)%Q; [|lia|lia].
  destruct (Z.even (Qfloor x)); lia.
Qed.

(** [round] leaves an integer value alone. *)
Lemma round_integer (x : Q) (k : Z) : (x == inject_Z k)%Q -> round x = k.
Proof.
  intro H. unfold round.
  assert (Hfl : Qfloor x = k) by (rewrite H; apply Qfloor_Z).
  rewrite Hfl.
  replace (x - inject_Z k ?= 1 # 2)%Q with Lt; [reflexivity|].
  symmetry. rewrite <- Qlt_alt. lra.
Qed.

Lemma Qcompare_cases (x y : Q) :
  match (x ?= y)%Q with
  | Lt => (x < y)%Q
  | Eq => (x == y)%Q
  | Gt => (y < x)%Q
  end.
Proof.
  destruct (x ?= y)%Q eqn:C.
  - now rewrite Qeq_alt.
  - now rewrite Qlt_alt.
  - now rewrite Qgt_alt.
Qed.

Lemma round_monotone (x y : Q) : (x <= y)%Q -> round x <= round y.
Proof.
  intro Hxy.
  pose proof (Qfloor_resp_le x y Hxy) as Hfl.
  pose proof (round_between x) as Hx. pose proof (round_between y) as Hy.
  destruct (Z.eq_dec (Qfloor x) (Qfloor y)) as [E|E]; [|lia].
  clear Hx Hy. unfold round. rewrite <- E.
  pose proof (Qcompare_cases (x - inject_Z (Qfloor x)) (1 # 2)) as Cx.
  pose proof (Qcompare_cases (y - inject_Z (Qfloor x)) (1 # 2)) as Cy.
  destruct (x - inject_Z (Qfloor x) ?= 1 # 2)%Q;
    destruct (y - inject_Z (Qfloor x) ?= 1 # 2)%Q;
    try (destruct (Z.even (Qfloor x)); lia);
    try lia; exfalso; lra.
Qed.

Lemma round_nonneg (x : Q) : (0 <= x)%Q -> 0 <= round x.
Proof.
  intro H. pose proof (round_between x).
  pose proof (inject_Z_le_floor 0 x H). lia.
Qed.

End RoundFacts.


(** * Further properties of the pattern expander *)

Lemma map_seq_shift {B : Type} (g : nat -> B) (k len : nat) : forall s : nat,
  map g (List.seq (s + k) len) = map (fun i => g (i + k)%nat) (List.seq s len).
Proof.
  induction len as [|len IH]; intro s; [reflexivity|].
  cbn [List.seq map]. f_equal. apply (IH (S s)).
Qed.

Lemma range_app (a b c : Z) :
  a <= b <= c -> range a c = range a b ++ range b c.
Proof.
  intro H. unfold range.
  replace (Z.to_nat (c - a)) with (Z.to_nat (b - a) + Z.to_nat (c - b))%nat by lia.
  rewrite seq_app, map_app. f_equal.
  rewrite map_seq_shift. apply map_ext. intro i. lia.
Qed.

(** The same values come back one cycle later. *)
Lemma frame_value_periodic (frames_per_cycle on_frames i k : Z) :
  frame_value frames_per_cycle on_frames (i + k * frames_per_cycle)
  = frame_value frames_per_cycle on_frames i.
Proof.
  unfold frame_value. destruct (Z.eq_dec frames_per_cycle 0) as [->|H].
  - now rewrite Z.mul_0_r, Z.add_0_r.
  - now rewrite Z.mod_add.
Qed.

(** X8: the call raises exactly when the cycle length is 0 and there is a
    frame to compute, and then it is the modulo that raises; without frames
    ([total_frames <= 0]) it returns the empty pattern whatever the cycle;
    otherwise it returns [total_frames] values, each 0 or 1. *)
Theorem generate_frame_pattern_failure (frames_per_cycle on_frames total_frames : Z) :
  (frames_per_cycle = 0 -> 0 < total_frames ->
     generate_frame_pattern frames_per_cycle on_frames total_frames
     = Raise ZeroDivisionError) /\
  (total_frames <= 0 ->
     generate_frame_pattern frames_per_cycle on_frames total_frames = Ok []) /\
  (frames_per_cycle <> 0 ->
     exists pattern : list Z,
       generate_frame_pattern frames_per_cycle on_frames total_frames = Ok pattern /\
       len pattern = Z.max 0 total_frames /\
       Forall is_bit pattern).
Proof.
  repeat split.
  - intros -> Ht. unfold generate_frame_pattern, range.
    destruct (Z.to_nat (total_frames - 0)) eqn:E; [lia|]. reflexivity.
  - intro Ht. unfold generate_frame_pattern, range.
    now replace (Z.to_nat (total_frames - 0)) with O by lia.
  - intro Hc. eexists. split; [now apply generate_frame_pattern_value|]. split.
    + unfold len. rewrite length_map, range_length. lia.
    + apply Forall_forall. intros v Hv. apply in_map_iff in Hv.
      destruct Hv as (i & <- & _). unfold frame_value, is_bit.
      destruct (i mod frames_per_cycle <? on_frames); [now right | now left].
Qed.

Lemma generate_frame_pattern_failure_witness :
  generate_frame_pattern 0 1 5 = Raise ZeroDivisionError /\
  generate_frame_pattern 0 1 (-2) = Ok [] /\
  exists pattern : list Z,
    generate_frame_pattern (-3) 1 4 = Ok pattern /\
    len pattern = Z.max 0 4 /\ Forall is_bit pattern.
Proof.
  split; [|split].
  - apply (generate_frame_pattern_failure 0 1 5); [reflexivity | lia].
  - apply (generate_frame_pattern_failure 0 1 (-2)). lia.
  - apply (generate_frame_pattern_failure (-3) 1 4). lia.
Defined.

(** X9: a returned pattern is periodic: the frames [i] and
    [i + frames_per_cycle] have the same value wherever both exist. *)
Theorem generate_frame_pattern_periodic
  (frames_per_cycle on_frames total_frames : Z) (pattern : list Z) (i : Z) :
  generate_frame_pattern frames_per_cycle on_frames total_frames = Ok pattern ->
  0 < frames_per_cycle -> 0 <= i -> i + frames_per_cycle < total_frames ->
  nth_error pattern (Z.to_nat i)
  = nth_error pattern (Z.to_nat (i + frames_per_cycle)) /\
  nth_error pattern (Z.to_nat i) <> None.
Proof.
  intros H Hc Hi Ht.
  rewrite generate_frame_pattern_value in H by lia. injection H as <-.
  rewrite !(nth_error_map_range (frame_value frames_per_cycle on_frames)) by lia.
  split; [|discriminate]. f_equal. cbn [Z.add].
  rewrite <- (frame_value_periodic frames_per_cycle on_frames i 1).
  f_equal. lia.
Qed.

Lemma generate_frame_pattern_periodic_witness :
  nth_error [1; 1; 0; 1; 1; 0; 1] (Z.to_nat 2)
  = nth_error [1; 1; 0; 1; 1; 0; 1] (Z.to_nat (2 + 3)) /\
  nth_error [1; 1; 0; 1; 1; 0; 1] (Z.to_nat 2) <> None.
Proof.
  apply (generate_frame_pattern_periodic 3 2 7); [reflexivity | lia | lia | lia].
Defined.

Section Cycle.

Context {A : Type}.
Variable saved : list A.
Hypothesis saved_nonempty : saved <> [].

Lemma take_cycle_length (stop : nat) : forall rest : list A,
  List.length (Itertools.take_cycle stop rest saved) = stop.
Proof.
  induction stop as [|stop IH]; intro rest; [reflexivity|].
  cbn [Itertools.take_cycle]. destruct rest as [|x rest].
  - destruct saved as [|x rest]; [contradiction|]. cbn. now rewrite IH.
  - cbn. now rewrite IH.
Qed.

(** Element [i] of the replay: still in the pass under way, or at place
    [(i - len(rest)) mod len(saved)] of the saved elements. *)
Lemma take_cycle_nth (stop : nat) : forall (rest : list A) (i : nat),
  (i < stop)%nat ->
  nth_error (Itertools.take_cycle stop rest saved) i
  = if (i <? List.length rest)%nat then nth_error rest i
    else nth_error saved ((i - List.length rest) mod List.length saved).
Proof.
  induction stop as [|stop IH]; intros rest i Hi; [lia|].
  cbn [Itertools.take_cycle]. destruct rest as [|x rest].
  - destruct saved as [|x rest] eqn:Es; [contradiction|].
    rewrite <- Es in *. cbn [List.length Nat.ltb Nat.leb]. rewrite Nat.sub_0_r.
    assert (HL : List.length saved = S (List.length rest)) by now rewrite Es.
    destruct i as [|i].
    + rewrite Nat.Div0.mod_0_l. now rewrite Es.
    + cbn [nth_error]. rewrite IH by lia.
      destruct (Nat.ltb_spec i (List.length rest)) as [Hlt|Hge].
      * rewrite Nat.mod_small by lia. now rewrite Es.
      * f_equal. rewrite HL.
        replace (S i) with ((i - List.length rest) + 1 * S (List.length rest))%nat
          by lia.
        now rewrite Nat.Div0.mod_add.
  - destruct i as [|i]; [reflexivity|].
    cbn [nth_error List.length]. rewrite IH by lia.
    reflexivity.
Qed.

Lemma take_cycle_replay (stop i : nat) :
  (i < stop)%nat ->
  nth_error (Itertools.take_cycle stop saved saved) i
  = nth_error saved (i mod List.length saved).
Proof.
  intro Hi. rewrite take_cycle_nth by exact Hi.
  assert (HL : List.length saved <> O)
    by (destruct saved; [contradiction | discriminate]).
  destruct (Nat.ltb_spec i (List.length saved)) as [Hlt|Hge].
  - now rewrite Nat.mod_small.
  - f_equal.
    replace i with ((i - List.length saved) + 1 * List.length saved)%nat at 2
      by lia.
    now rewrite Nat.Div0.mod_add.
Qed.

End Cycle.

Lemma nth_error_map_range_nat {B : Type} (g : Z -> B) (a b : Z) (i : nat) :
  (i < Z.to_nat (b - a))%nat ->
  nth_error (map g (range a b)) i = Some (g (a + Z.of_nat i)).
Proof.
  intro Hi. rewrite <- (Nat2Z.id i) at 1.
  apply nth_error_map_range. lia.
Qed.

Lemma onoff_cycle_nth (a b j : nat) :
  (j < a + b)%nat ->
  nth_error (repeat 1 a ++ repeat 0 b) j = Some (if (j <? a)%nat then 1 else 0).
Proof.
  intro Hj. destruct (Nat.ltb_spec j a) as [Hlt|Hge].
  - rewrite nth_error_app1 by (rewrite repeat_length; lia).
    rewrite nth_error_repeat by lia. reflexivity.
  - rewrite nth_error_app2 by (rewrite repeat_length; lia).
    rewrite repeat_length, nth_error_repeat by lia. reflexivity.
Qed.

(** X10: the pattern is the one the tests compare it with: for a cycle of
    at least one frame and any number of frames [total_frames >= 0],
    [generate_frame_pattern] returns what [generate_onoff_sequence] does,
    the ON frames followed by the OFF frames, repeated and cut at
    [total_frames]. *)
Theorem generate_frame_pattern_reference
  (frames_per_cycle on_frames total_frames : Z) :
  1 <= frames_per_cycle -> 0 <= total_frames ->
  exists pattern : list Z,
    generate_frame_pattern frames_per_cycle on_frames total_frames = Ok pattern /\
    TestFlickerCoreParam.generate_onoff_sequence
      frames_per_cycle on_frames total_frames = Ok pattern.
Proof.
  intros Hc Ht. eexists. split; [apply generate_frame_pattern_value; lia|].
  unfold TestFlickerCoreParam.generate_onoff_sequence, Itertools.islice_cycle.
  rewrite (proj2 (Z.ltb_ge total_frames 0)) by lia. f_equal.
  set (a := Z.to_nat on_frames). set (b := Z.to_nat (frames_per_cycle - on_frames)).
  assert (Hne : repeat 1 a ++ repeat 0 b <> []).
  { intro E. apply (f_equal (@List.length Z)) in E.
    rewrite length_app, !repeat_length in E. cbn in E. lia. }
  apply nth_error_ext. intro i.
  destruct (Nat.ltb_spec i (Z.to_nat total_frames)) as [Hi|Hi].
  - rewrite take_cycle_replay by assumption.
    rewrite length_app, !repeat_length.
    rewrite onoff_cycle_nth by (apply Nat.mod_upper_bound; lia).
    rewrite (nth_error_map_range_nat (frame_value frames_per_cycle on_frames)) by lia.
    f_equal. cbn [Z.add]. unfold frame_value.
    pose proof (Z.mod_pos_bound (Z.of_nat i) frames_per_cycle ltac:(lia)) as Hm.
    destruct (Z_lt_le_dec on_frames 0) as [Hneg|Hpos].
    + replace a with O by lia. cbn [Nat.ltb Nat.leb].
      now rewrite (proj2 (Z.ltb_ge _ _)) by lia.
    + destruct (Z_lt_le_dec frames_per_cycle on_frames) as [Hbig|Hsmall].
      * replace b with O by lia. rewrite Nat.add_0_r.
        rewrite (proj2 (Nat.ltb_lt _ _)) by (apply Nat.mod_upper_bound; lia).
        now rewrite (proj2 (Z.ltb_lt _ _)) by lia.
      * replace (a + b)%nat with (Z.to_nat frames_per_cycle) by lia.
        assert (Hmod : Z.of_nat (i mod Z.to_nat frames_per_cycle)
                       = Z.of_nat i mod frames_per_cycle).
        { rewrite Nat2Z.inj_mod. f_equal. lia. }
        destruct (Nat.ltb_spec (i mod Z.to_nat frames_per_cycle) a);
          destruct (Z.ltb_spec (Z.of_nat i mod frames_per_cycle) on_frames);
          try reflexivity; lia.
  - rewrite (proj2 (nth_error_None _ _))
      by (rewrite take_cycle_length by assumption; lia).
    symmetry. apply nth_error_None. rewrite length_map, range_length. lia.
Qed.

Lemma generate_frame_pattern_reference_witness :
  exists pattern : list Z,
    generate_frame_pattern 5 2 12 = Ok pattern /\
    TestFlickerCoreParam.generate_onoff_sequence 5 2 12 = Ok pattern.
Proof.
  apply (generate_frame_pattern_reference 5 2 12); lia.
Defined.

Section OnCount.

Variables frames_per_cycle on_frames : Z.
Hypothesis cycle_pos : 1 <= frames_per_cycle.
Hypothesis on_range : 0 <= on_frames <= frames_per_cycle.

Lemma on_count_app (u v : list Z) :
  on_count (u ++ v) = (on_count u + on_count v)%nat.
Proof. unfold on_count. now rewrite filter_app, length_app. Qed.

Lemma on_count_constant (g : Z -> Z) (v : Z) (l : list Z) :
  (forall x, In x l -> g x = v) ->
  on_count (map g l) = if v =? 1 then List.length l else O.
Proof.
  intro H. induction l as [|x l IH]; [now destruct (v =? 1)|].
  assert (IH' := IH (fun y Hy => H y (or_intror Hy))).
  unfold on_count in *. cbn [map filter].
  rewrite (H x (or_introl eq_refl)).
  destruct (v =? 1); cbn [List.length]; now rewrite IH'.
Qed.

(** The ON frames among the first [k] frames of a cycle. *)
Lemma on_count_within_cycle (k : Z) :
  0 <= k <= frames_per_cycle ->
  Z.of_nat (on_count (map (frame_value frames_per_cycle on_frames) (range 0 k)))
  = Z.min k on_frames.
Proof.
  intro Hk.
  rewrite (range_app 0 (Z.min k on_frames) k) by lia.
  rewrite map_app, on_count_app.
  rewrite (on_count_constant _ 1), (on_count_constant _ 0).
  - cbn. rewrite range_length. lia.
  - intros x Hx. apply In_range in Hx. unfold frame_value.
    rewrite Z.mod_small by lia. now rewrite (proj2 (Z.ltb_ge _ _)) by lia.
  - intros x Hx. apply In_range in Hx. unfold frame_value.
    rewrite Z.mod_small by lia. now rewrite (proj2 (Z.ltb_lt _ _)) by lia.
Qed.

(** The frames of any stretch that starts on a cycle boundary are those of
    the stretch that starts at frame 0. *)
Lemma pattern_from_boundary (j k : Z) :
  map (frame_value frames_per_cycle on_frames)
    (range (j * frames_per_cycle) (j * frames_per_cycle + k))
  = map (frame_value frames_per_cycle on_frames) (range 0 k).
Proof.
  unfold range. rewrite !map_map.
  replace (Z.to_nat (j * frames_per_cycle + k - j * frames_per_cycle))
    with (Z.to_nat (k - 0)) by lia.
  apply map_ext. intro i.
  rewrite Z.add_comm. apply frame_value_periodic.
Qed.

Lemma on_count_cycles (j : nat) :
  Z.of_nat (on_count (map (frame_value frames_per_cycle on_frames)
                        (range 0 (Z.of_nat j * frames_per_cycle))))
  = Z.of_nat j * on_frames.
Proof.
  induction j as [|j IH]; [reflexivity|].
  rewrite (range_app 0 (Z.of_nat j * frames_per_cycle)) by nia.
  replace (Z.of_nat (S j) * frames_per_cycle)
    with (Z.of_nat j * frames_per_cycle + frames_per_cycle) by lia.
  rewrite map_app, on_count_app, pattern_from_boundary.
  rewrite Nat2Z.inj_add, IH, on_count_within_cycle by lia. lia.
Qed.

End OnCount.

(** X11: with [0 <= on_frames <= frames_per_cycle], a pattern of
    [total_frames] frames holds [on_frames] ON frames for each complete
    cycle, plus those of the cut last cycle: the first
    [total_frames mod frames_per_cycle] frames of a cycle, at most
    [on_frames] of them ON. *)
Theorem generate_frame_pattern_on_count
  (frames_per_cycle on_frames total_frames : Z) (pattern : list Z) :
  1 <= frames_per_cycle -> 0 <= on_frames <= frames_per_cycle ->
  0 <= total_frames ->
  generate_frame_pattern frames_per_cycle on_frames total_frames = Ok pattern ->
  Z.of_nat (on_count pattern)
  = (total_frames / frames_per_cycle) * on_frames
    + Z.min (total_frames mod frames_per_cycle) on_frames.
Proof.
  intros Hc Hon Ht H.
  rewrite generate_frame_pattern_value in H by lia. injection H as <-.
  pose proof (Z.div_mod total_frames frames_per_cycle ltac:(lia)) as Hdm.
  pose proof (Z.mod_pos_bound total_frames frames_per_cycle ltac:(lia)) as Hm.
  assert (Hq : 0 <= total_frames / frames_per_cycle) by (apply Z.div_pos; lia).
  set (q := total_frames / frames_per_cycle) in *.
  set (k := total_frames mod frames_per_cycle) in *.
  rewrite (range_app 0 (q * frames_per_cycle) total_frames) by nia.
  replace total_frames with (q * frames_per_cycle + k) at 1 by lia.
  rewrite map_app, on_count_app, pattern_from_boundary, Nat2Z.inj_add.
  rewrite <- (Z2Nat.id q Hq) at 1.
  rewrite on_count_cycles by assumption.
  rewrite on_count_within_cycle by lia. lia.
Qed.

Lemma generate_frame_pattern_on_count_witness :
  Z.of_nat (on_count [1; 1; 0; 0; 0; 1; 1; 0; 0; 0; 1])
  = (11 / 5) * 2 + Z.min (11 mod 5) 2.
Proof.
  apply (generate_frame_pattern_on_count 5 2 11); try lia. reflexivity.
Defined.

(** * Further properties of the layout generator *)

Lemma generate_positions_failure_cases (n : Z) :
  n <= 0 ->
  generate_positions n = Raise ValueError \/
  generate_positions n = Raise ZeroDivisionError.
Proof.
  intro Hn. unfold generate_positions, ceil_sqrt.
  destruct (Z.ltb_spec n 0) as [H|H]; [now left|].
  right. now replace n with 0 by lia.
Qed.

(** The returned layout, position by position. *)
Lemma generate_positions_cells (n : Z) :
  0 < n ->
  exists (cols rows : Z) (positions : list (Q * Q)),
    0 < cols /\ 0 < rows /\
    is_ceil_sqrt n cols /\ is_ceil_quotient n cols rows /\
    generate_positions n = Ok positions /\
    positions = firstn (Z.to_nat n) (row_major rows cols) /\
    forall i : Z, 0 <= i < n ->
      nth_error positions (Z.to_nat i)
      = Some (grid_position rows cols (i / cols) (i mod cols)).
Proof.
  intro Hn.
  destruct (generate_positions_value n Hn)
    as (cols & rows & Hc & Hr & Hsq & Hrows & Hval).
  exists cols, rows, (firstn (Z.to_nat n) (row_major rows cols)).
  repeat (split; [assumption|]). split; [reflexivity|].
  intros i Hi. rewrite nth_error_firstn.
  destruct (Nat.ltb_spec (Z.to_nat i) (Z.to_nat n)) as [_|H]; [|lia].
  apply row_major_nth; [exact Hc|].
  unfold is_ceil_quotient in Hrows. lia.
Qed.

Section GridCells.

Lemma inject_Z_minus (a b : Z) : (inject_Z (a - b) == inject_Z a - inject_Z b)%Q.
Proof. unfold Z.sub. now rewrite inject_Z_plus, inject_Z_opp. Qed.

Lemma spacing_nonzero (k : Z) : 1 < k -> ~ (spacing k == 0)%Q.
Proof.
  intros Hk E. unfold spacing in E. rewrite (proj2 (Z.ltb_lt 1 k) Hk) in E.
  assert (H : (0 < inject_Z (k - 1))%Q) by (apply inject_Z_pos; lia).
  assert (H' : (0 < 1 / inject_Z (k - 1))%Q)
    by (apply Qlt_shift_div_l; [exact H | lra]).
  lra.
Qed.

(** Two cells of an axis with the same coordinate are the same cell. *)
Lemma axis_coordinate_injective (k c c' : Z) :
  0 <= c < k -> 0 <= c' < k ->
  ((inject_Z c - inject_Z (k - 1) / 2) * spacing k
   == (inject_Z c' - inject_Z (k - 1) / 2) * spacing k)%Q ->
  c = c'.
Proof.
  intros Hc Hc' E. destruct (Z_lt_le_dec 1 k) as [Hk|Hk]; [|lia].
  apply Qmult_inj_r in E; [|now apply spacing_nonzero].
  apply inject_Z_injective. lra.
Qed.

Lemma grid_position_injective (rows cols r c r' c' : Z) :
  0 <= r < rows -> 0 <= c < cols -> 0 <= r' < rows -> 0 <= c' < cols ->
  same_position (grid_position rows cols r c) (grid_position rows cols r' c') ->
  r = r' /\ c = c'.
Proof.
  intros Hr Hc Hr' Hc' [Ex Ey]. cbn [grid_position fst snd] in Ex, Ey. split.
  - apply (axis_coordinate_injective rows r r' Hr Hr').
    setoid_replace ((inject_Z r - inject_Z (rows - 1) / 2) * spacing rows)%Q
      with (- ((inject_Z (rows - 1) / 2 - inject_Z r) * spacing rows))%Q by ring.
    rewrite Ey. ring.
  - exact (axis_coordinate_injective cols c c' Hc Hc' Ex).
Qed.

(** The mirror images of a cell are the cells opposite to it. *)
Lemma grid_position_mirror (rows cols r c : Z) :
  same_position
    ((- fst (grid_position rows cols r c))%Q, snd (grid_position rows cols r c))
    (grid_position rows cols r (cols - 1 - c)) /\
  same_position
    (fst (grid_position rows cols r c), (- snd (grid_position rows cols r c))%Q)
    (grid_position rows cols (rows - 1 - r) c).
Proof.
  unfold same_position. cbn [grid_position fst snd].
  rewrite !inject_Z_minus. repeat split; try reflexivity; field.
Qed.

Lemma In_row_major_cell (rows cols r c : Z) :
  0 <= r < rows -> 0 <= c < cols ->
  In (grid_position rows cols r c) (row_major rows cols).
Proof.
  intros Hr Hc. unfold row_major. apply in_flat_map.
  exists r. split; [now apply In_range|].
  apply in_map. now apply In_range.
Qed.

Lemma row_major_symmetric (rows cols : Z) :
  symmetric_about_axes (row_major rows cols).
Proof.
  apply Forall_forall. intros p Hp.
  apply In_row_major in Hp. destruct Hp as (r & c & Hr & Hc & ->).
  destruct (grid_position_mirror rows cols r c) as [Hx Hy].
  split; apply Exists_exists.
  - exists (grid_position rows cols r (cols - 1 - c)).
    split; [apply In_row_major_cell; lia | exact Hx].
  - exists (grid_position rows cols (rows - 1 - r) c).
    split; [apply In_row_major_cell; lia | exact Hy].
Qed.

End GridCells.

(** X12: the grid is as square as can be: it has as many rows as columns
    or one row fewer, and its last row holds at least one position (fewer
    than [cols] cells of the grid stay empty). *)
Theorem generate_positions_grid_shape (n_stim : Z) :
  1 <= n_stim ->
  exists (cols rows : Z) (positions : list (Q * Q)),
    generate_positions n_stim = Ok positions /\
    positions = firstn (Z.to_nat n_stim) (row_major rows cols) /\
    1 <= rows /\ cols - 1 <= rows <= cols /\
    0 <= rows * cols - n_stim < cols.
Proof.
  intro Hn.
  destruct (generate_positions_cells n_stim ltac:(lia))
    as (cols & rows & positions & Hc & Hr & Hsq & Hrows & Hval & Hpos & _).
  exists cols, rows, positions. repeat (split; [assumption|]).
  unfold is_ceil_sqrt in Hsq. unfold is_ceil_quotient in Hrows.
  split; [lia|]. split; nia.
Qed.

Lemma generate_positions_grid_shape_witness :
  exists (cols rows : Z) (positions : list (Q * Q)),
    generate_positions 7 = Ok positions /\
    positions = firstn (Z.to_nat 7) (row_major rows cols) /\
    1 <= rows /\ cols - 1 <= rows <= cols /\
    0 <= rows * cols - 7 < cols.
Proof.
  apply (generate_positions_grid_shape 7). lia.
Defined.

(** X13: no two stimuli share a position: the positions returned for
    different indices differ in at least one coordinate. *)
Theorem generate_positions_distinct
  (n_stim : Z) (positions : list (Q * Q)) (i j : Z) (p q : Q * Q) :
  generate_positions n_stim = Ok positions ->
  0 <= i < j ->
  nth_error positions (Z.to_nat i) = Some p ->
  nth_error positions (Z.to_nat j) = Some q ->
  ~ same_position p q.
Proof.
  intros H Hij Hp Hq.
  destruct (Z_lt_le_dec 0 n_stim) as [Hn|Hn].
  2: { destruct (generate_positions_failure_cases n_stim Hn) as [E|E];
       rewrite E in H; discriminate. }
  destruct (generate_positions_cells n_stim Hn)
    as (cols & rows & positions' & Hc & Hr & Hsq & Hrows & Hval & Hpos & Hnth).
  rewrite Hval in H. injection H as <-.
  assert (Hlen : (List.length positions' <= Z.to_nat n_stim)%nat)
    by (rewrite Hpos; apply firstn_le_length).
  assert (Hj : j < n_stim).
  { assert (Hsome : nth_error positions' (Z.to_nat j) <> None) by congruence.
    apply nth_error_Some in Hsome. lia. }
  rewrite Hnth in Hp, Hq by lia. injection Hp as <-. injection Hq as <-.
  unfold is_ceil_quotient in Hrows.
  pose proof (Z.div_mod i cols ltac:(lia)) as Hi'.
  pose proof (Z.div_mod j cols ltac:(lia)) as Hj'.
  pose proof (Z.mod_pos_bound i cols Hc) as Hmi.
  pose proof (Z.mod_pos_bound j cols Hc) as Hmj.
  assert (Hdi : 0 <= i / cols < rows).
  { split; [apply Z.div_pos; lia|]. apply Z.div_lt_upper_bound; nia. }
  assert (Hdj : 0 <= j / cols < rows).
  { split; [apply Z.div_pos; lia|]. apply Z.div_lt_upper_bound; nia. }
  intro Hsame.
  apply grid_position_injective in Hsame; [|assumption..].
  destruct Hsame as [E1 E2]. rewrite E1, E2 in Hi'. lia.
Qed.

Lemma generate_positions_distinct_witness :
  ~ same_position (0 # 4, 1 # 2)%Q (-2 # 4, -1 # 2)%Q.
Proof.
  apply (generate_positions_distinct 5
           [(-2 # 4, 1 # 2); (0 # 4, 1 # 2); (2 # 4, 1 # 2);
            (-2 # 4, -1 # 2); (0 # 4, -1 # 2)]%Q 1 3);
    [reflexivity | lia | reflexivity | reflexivity].
Defined.

(** X14: when the stimuli fill the grid ([rows * cols] of them, for a grid
    of [cols] columns and [cols] or [cols - 1] rows), the layout is the
    whole grid and is symmetric about both axes. *)
Theorem generate_positions_full_grid (rows cols : Z) :
  1 <= rows -> cols - 1 <= rows <= cols ->
  generate_positions (rows * cols) = Ok (row_major rows cols) /\
  symmetric_about_axes (row_major rows cols).
Proof.
  intros Hr Hc. split; [|apply row_major_symmetric].
  destruct (generate_positions_cells (rows * cols) ltac:(nia))
    as (cols' & rows' & positions & Hc' & Hr' & Hsq & Hrows & Hval & Hpos & _).
  unfold is_ceil_sqrt in Hsq. unfold is_ceil_quotient in Hrows.
  assert (cols' = cols) as -> by nia.
  assert (rows' = rows) as -> by nia.
  rewrite Hval, Hpos. f_equal. apply firstn_all2.
  pose proof (row_major_length rows cols ltac:(lia) ltac:(lia)) as Hlen.
  unfold len in Hlen. lia.
Qed.

Lemma generate_positions_full_grid_witness :
  generate_positions (3 * 4) = Ok (row_major 3 4) /\
  symmetric_about_axes (row_major 3 4).
Proof.
  apply (generate_positions_full_grid 3 4); lia.
Defined.

(** * Further properties of the sequence generator *)

Section RollFacts.

Context {A : Type}.
Variable a : list A.

(** What stands at place [p] after a rotation. *)
Lemma roll_nth_from (shift p : Z) :
  0 <= p < len a ->
  nth_error (Numpy.roll a shift) (Z.to_nat p)
  = nth_error a (Z.to_nat ((p - shift) mod len a)).
Proof.
  intro Hp.
  pose proof (Z.mod_pos_bound (p - shift) (len a) ltac:(lia)) as Hm.
  rewrite <- (roll_nth a shift ((p - shift) mod len a) Hm).
  do 2 f_equal. rewrite Zplus_mod_idemp_l.
  replace (p - shift + shift) with p by lia.
  symmetry. now apply Z.mod_small.
Qed.

Lemma In_roll (shift : Z) (x : A) : In x (Numpy.roll a shift) -> In x a.
Proof.
  unfold Numpy.roll.
  destruct (Z.of_nat (List.length a) =? 0); [tauto|].
  intro H. apply in_app_or in H.
  rewrite <- (firstn_skipn
                (Z.to_nat (Z.of_nat (List.length a)
                           - shift mod Z.of_nat (List.length a))) a).
  apply in_or_app. tauto.
Qed.

End RollFacts.

(** Rotations add up. *)
Lemma roll_roll {A : Type} (a : list A) (j k : Z) :
  Numpy.roll (Numpy.roll a j) k = Numpy.roll a (j + k).
Proof.
  apply nth_error_ext. intro p.
  destruct (Nat.ltb_spec p (List.length a)) as [Hp|Hp].
  - assert (Hlen : len (Numpy.roll a j) = len a)
      by (unfold len; now rewrite roll_length).
    rewrite <- (Nat2Z.id p).
    rewrite (roll_nth_from (Numpy.roll a j)) by (rewrite Hlen; unfold len; lia).
    rewrite Hlen.
    rewrite (roll_nth_from a j) by (apply Z.mod_pos_bound; unfold len; lia).
    rewrite (roll_nth_from a (j + k)) by (unfold len; lia).
    do 2 f_equal. rewrite Zminus_mod_idemp_l. f_equal. lia.
  - rewrite !(proj2 (nth_error_None _ _)); [reflexivity| |];
      rewrite ?roll_length; exact Hp.
Qed.

(** A rotation keeps the number of ON frames. *)
Lemma on_count_roll (a : list Z) (shift : Z) :
  on_count (Numpy.roll a shift) = on_count a.
Proof.
  unfold Numpy.roll.
  destruct (Z.of_nat (List.length a) =? 0); [reflexivity|].
  rewrite on_count_app, Nat.add_comm, <- on_count_app.
  now rewrite firstn_skipn.
Qed.

Lemma calculate_m_sequences_returns (n_stim : Z) :
  exists patterns : list (list Z), calculate_m_sequences n_stim = Ok patterns.
Proof.
  destruct max_len_seq_6 as (base & state & Hbase & _).
  eexists. apply (calculate_m_sequences_value n_stim base state Hbase).
Defined.

Lemma calculate_m_sequences_entry (n_stim s : Z) (patterns : list (list Z)) :
  calculate_m_sequences n_stim = Ok patterns -> 0 <= s < n_stim ->
  exists u : list Z, nth_error patterns (Z.to_nat s) = Some u.
Proof.
  intros H Hs. destruct max_len_seq_6 as (base & state & Hbase & _).
  rewrite (calculate_m_sequences_value n_stim base state Hbase) in H.
  injection H as <-. eexists.
  apply (nth_error_map_range (fun s => Numpy.roll base (s * 4))). lia.
Qed.

(** X15: for [n_stim <= 0] the call returns no sequence; every sequence
    it returns has 63 frames, each 0 or 1, of which exactly 32 are ON. *)
Theorem calculate_m_sequences_balance
  (n_stim : Z) (patterns : list (list Z)) :
  calculate_m_sequences n_stim = Ok patterns ->
  (n_stim <= 0 -> patterns = []) /\
  Forall (fun shifted_seq =>
            len shifted_seq = 63 /\ Forall is_bit shifted_seq /\
            on_count shifted_seq = 32%nat) patterns.
Proof.
  intro H.
  destruct max_len_seq_6 as (base & state & Hbase & _).
  rewrite (calculate_m_sequences_value n_stim base state Hbase) in H.
  injection H as <-. split.
  - intro Hn. unfold range. now replace (Z.to_nat (n_stim - 0)) with O by lia.
  - apply Forall_forall. intros shifted_seq Hs.
    apply in_map_iff in Hs. destruct Hs as (s & <- & _).
    vm_compute in Hbase. injection Hbase as <- _.
    split; [|split].
    + unfold len. now rewrite roll_length.
    + apply Forall_forall. intros x Hx. apply In_roll in Hx.
      revert x Hx. apply Forall_forall.
      repeat (constructor; [first [left; reflexivity | right; reflexivity]|]).
      constructor.
    + rewrite on_count_roll. reflexivity.
Qed.

Lemma calculate_m_sequences_balance_witness :
  exists patterns : list (list Z),
    calculate_m_sequences 2 = Ok patterns /\
    Forall (fun shifted_seq =>
              len shifted_seq = 63 /\ Forall is_bit shifted_seq /\
              on_count shifted_seq = 32%nat) patterns.
Proof.
  destruct (calculate_m_sequences_returns 2) as [patterns Hp].
  exists patterns. split; [exact Hp|].
  apply (calculate_m_sequences_balance 2 patterns Hp).
Defined.

(** X16: each stimulus shows the sequence of the stimulus before it four
    frames later: sequence [s + 1] is sequence [s] rotated by 4. *)
Theorem calculate_m_sequences_successive
  (n_stim : Z) (patterns : list (list Z)) (s : Z) :
  calculate_m_sequences n_stim = Ok patterns ->
  0 <= s -> s + 1 < n_stim ->
  exists u v : list Z,
    nth_error patterns (Z.to_nat s) = Some u /\
    nth_error patterns (Z.to_nat (s + 1)) = Some v /\
    v = Numpy.roll u 4 /\
    forall i : Z, 0 <= i < 63 ->
      nth_error v (Z.to_nat ((i + 4) mod 63)) = nth_error u (Z.to_nat i) /\
      nth_error u (Z.to_nat i) <> None.
Proof.
  intros H Hs Hn.
  destruct max_len_seq_6 as (base & state & Hbase & _).
  pose proof (base_length base state Hbase) as Hlen.
  rewrite (calculate_m_sequences_value n_stim base state Hbase) in H.
  injection H as <-.
  rewrite !(nth_error_map_range (fun s => Numpy.roll base (s * 4))) by lia.
  cbn [Z.add]. do 2 eexists. split; [reflexivity|]. split; [reflexivity|].
  assert (Hroll : Numpy.roll base ((s + 1) * 4)
                  = Numpy.roll (Numpy.roll base (s * 4)) 4).
  { rewrite roll_roll. f_equal. lia. }
  split; [exact Hroll|].
  assert (Hlen' : len (Numpy.roll base (s * 4)) = 63)
    by (unfold len in *; now rewrite roll_length).
  intros i Hi. split.
  - rewrite Hroll, <- Hlen'. apply roll_nth. lia.
  - apply nth_error_Some. unfold len in Hlen'. lia.
Qed.

Lemma calculate_m_sequences_successive_witness :
  exists (patterns : list (list Z)) (u v : list Z),
    calculate_m_sequences 3 = Ok patterns /\
    nth_error patterns (Z.to_nat 1) = Some u /\
    nth_error patterns (Z.to_nat (1 + 1)) = Some v /\
    v = Numpy.roll u 4.
Proof.
  destruct (calculate_m_sequences_returns 3) as [patterns Hp].
  destruct (calculate_m_sequences_successive 3 patterns 1 Hp ltac:(lia) ltac:(lia))
    as (u & v & Hu & Hv & Huv & _).
  exists patterns, u, v. repeat split; assumption.
Defined.

Section Distance.

Variables base state : list Z.
Hypothesis base_def : Scipy.max_len_seq 6 = Ok (base, state).

(** Two different rotations of the base sequence agree at 31 places. *)
Lemma base_rotations_agreements (a b : Z) :
  0 <= a < 63 -> 0 <= b < 63 -> a <> b ->
  agreements (Numpy.roll base a) (Numpy.roll base b) = 31%nat.
Proof.
  intros Ha Hb Hab.
  vm_compute in base_def. injection base_def as <- _.
  match goal with
  | |- agreements (Numpy.roll ?l _) _ = _ =>
      assert (Hall :
        forallb (fun a =>
          forallb (fun b =>
            (a =? b)
            || (agreements (Numpy.roll l a) (Numpy.roll l b) =? 31)%nat)
            (range 0 63)) (range 0 63) = true) by (vm_compute; reflexivity)
  end.
  rewrite forallb_forall in Hall.
  specialize (Hall a (proj2 (In_range 0 63 a) Ha)).
  rewrite forallb_forall in Hall.
  specialize (Hall b (proj2 (In_range 0 63 b) Hb)).
  apply orb_true_iff in Hall. destruct Hall as [Hall|Hall].
  - apply Z.eqb_eq in Hall. contradiction.
  - now apply Nat.eqb_eq in Hall.
Qed.

End Distance.

(** X17: up to 63 stimuli, the sequences of two different stimuli agree in
    exactly 31 of their 63 frames (and so differ in 32). *)
Theorem calculate_m_sequences_distance
  (n_stim : Z) (patterns : list (list Z)) (s t : Z) (u v : list Z) :
  calculate_m_sequences n_stim = Ok patterns ->
  n_stim <= 63 -> 0 <= s < t -> t < n_stim ->
  nth_error patterns (Z.to_nat s) = Some u ->
  nth_error patterns (Z.to_nat t) = Some v ->
  agreements u v = 31%nat.
Proof.
  intros H Hn Hst Ht Hu Hv.
  destruct max_len_seq_6 as (base & state & Hbase & _).
  pose proof (base_length base state Hbase) as Hlen.
  rewrite (calculate_m_sequences_value n_stim base state Hbase) in H.
  injection H as <-.
  rewrite (nth_error_map_range (fun s => Numpy.roll base (s * 4))) in Hu, Hv by lia.
  cbn [Z.add] in Hu, Hv. injection Hu as <-. injection Hv as <-.
  rewrite <- (roll_mod base (s * 4)), <- (roll_mod base (t * 4)), Hlen.
  apply (base_rotations_agreements base state Hbase).
  - apply Z.mod_pos_bound. lia.
  - apply Z.mod_pos_bound. lia.
  - intro Heq. apply (rotations_distinct n_stim Hn).
    exists s, t. repeat split; lia.
Qed.

Lemma calculate_m_sequences_distance_witness :
  exists (patterns : list (list Z)) (u v : list Z),
    calculate_m_sequences 9 = Ok patterns /\
    nth_error patterns (Z.to_nat 2) = Some u /\
    nth_error patterns (Z.to_nat 7) = Some v /\
    agreements u v = 31%nat.
Proof.
  destruct (calculate_m_sequences_returns 9) as [patterns Hp].
  destruct (calculate_m_sequences_entry 9 2 patterns Hp ltac:(lia)) as [u Hu].
  destruct (calculate_m_sequences_entry 9 7 patterns Hp ltac:(lia)) as [v Hv].
  exists patterns, u, v. repeat (split; [assumption|]).
  apply (calculate_m_sequences_distance 9 patterns 2 7 u v Hp); try lia; assumption.
Defined.

(** * Rounding to the nearest double *)

Section PowersOfTwo.

Lemma pow2_pos (k : Z) : (0 < 2 ^ k)%Q.
Proof. now apply Qpower_0_lt. Qed.

Lemma pow2_add (a b : Z) : (2 ^ (a + b) == 2 ^ a * 2 ^ b)%Q.
Proof. now apply Qpower_plus. Qed.

Lemma pow2_succ (k : Z) : (2 ^ (k + 1) == 2 * 2 ^ k)%Q.
Proof. rewrite pow2_add. change (2 ^ 1)%Q with 2%Q. ring. Qed.

Lemma pow2_le (a b : Z) : a <= b -> (2 ^ a <= 2 ^ b)%Q.
Proof. intro H. apply Qpower_le_compat_l; [exact H | lra]. Qed.

Lemma pow2_lt (a b : Z) : a < b -> (2 ^ a < 2 ^ b)%Q.
Proof. intro H. apply Qpower_lt_compat_l; [exact H | lra]. Qed.

Lemma pow2_lt_inv (a b : Z) : (2 ^ a < 2 ^ b)%Q -> a < b.
Proof.
  intro H. destruct (Z_lt_le_dec a b) as [Hlt|Hge]; [exact Hlt|].
  apply pow2_le in Hge. lra.
Qed.

Lemma pow2_inject (n : Z) : 0 <= n -> (inject_Z (2 ^ n) == 2 ^ n)%Q.
Proof. intro H. now rewrite Zpower_Qpower. Qed.

(** Scaling by a power of two and back. *)
Lemma pow2_scale (x : Q) (k : Z) : (x / 2 ^ k * 2 ^ k == x)%Q.
Proof. field. pose proof (pow2_pos k). lra. Qed.

Lemma pow2_neg (k : Z) : (/ 2 ^ k == 2 ^ (- k))%Q.
Proof. now rewrite Qpower_opp. Qed.

End PowersOfTwo.

Lemma Qabs_num_den (x : Q) :
  (Qabs x == inject_Z (Z.abs (Qnum x)) / inject_Z (Zpos (Qden x)))%Q.
Proof.
  destruct x as [n d]. unfold Qabs, Qdiv, Qinv, Qmult, Qeq, inject_Z. cbn.
  destruct n; cbn; lia.
Qed.

Lemma Qabs_inject_Z (z : Z) : Qabs (inject_Z z) = inject_Z (Z.abs z).
Proof. now destruct z. Qed.

(** The exponent of a non-zero number brackets it between two powers of
    two. *)
Lemma exponent_spec (x : Q) :
  ~ (x == 0)%Q ->
  (2 ^ Double.exponent x <= Qabs x < 2 ^ (Double.exponent x + 1))%Q.
Proof.
  intro Hx. unfold Double.exponent.
  assert (Hnum : Qnum x <> 0).
  { destruct x as [p q]. unfold Qeq in Hx. cbn in *. lia. }
  rewrite (proj2 (Z.eqb_neq _ _) Hnum).
  set (n := Z.abs (Qnum x)). set (d := Zpos (Qden x)).
  assert (Hn : 0 < n) by (unfold n; lia).
  assert (Hd : 0 < d) by (unfold d; lia).
  pose proof (Z.log2_spec n Hn) as [Hn1 Hn2].
  pose proof (Z.log2_spec d Hd) as [Hd1 Hd2].
  pose proof (Z.log2_nonneg n) as Han. pose proof (Z.log2_nonneg d) as Hbn.
  set (a := Z.log2 n) in *. set (b := Z.log2 d) in *.
  rewrite Zle_Qle, pow2_inject in Hn1, Hd1 by lia.
  unfold Z.succ in Hn2, Hd2.
  rewrite Zlt_Qlt, pow2_inject in Hn2, Hd2 by lia.
  assert (HD : (0 < inject_Z d)%Q) by now apply inject_Z_pos.
  pose proof (Qabs_num_den x) as Habs. fold n d in Habs.
  destruct (Qle_bool (2 ^ (a - b)) (Qabs x)) eqn:Htest.
  - apply Qle_bool_iff in Htest. split; [exact Htest|].
    rewrite Habs. apply Qlt_shift_div_r; [exact HD|].
    apply Qlt_le_trans with (2 ^ (a + 1))%Q; [exact Hn2|].
    replace (a + 1) with ((a - b + 1) + b) by lia.
    rewrite pow2_add. apply Qmult_le_l; [apply pow2_pos | exact Hd1].
  - assert (Hlt : (Qabs x < 2 ^ (a - b))%Q).
    { apply Qnot_le_lt. intro H. apply Qle_bool_iff in H. congruence. }
    split.
    + rewrite Habs. apply Qle_shift_div_l; [exact HD|].
      apply Qle_trans with (2 ^ a)%Q; [|exact Hn1].
      replace a with ((a - b - 1) + (b + 1)) at 2 by lia.
      rewrite pow2_add. apply Qmult_le_l; [apply pow2_pos|].
      now apply Qlt_le_weak.
    + now replace (a - b - 1 + 1) with (a - b) by lia.
Qed.

(** Equal numbers have equal roundings. *)

Lemma exponent_unique (x : Q) (e : Z) :
  (2 ^ e <= Qabs x < 2 ^ (e + 1))%Q -> Double.exponent x = e.
Proof.
  intros [Hlo Hhi].
  assert (Hnz : ~ (x == 0)%Q).
  { intro E. rewrite E in Hlo. change (Qabs 0) with 0%Q in Hlo.
    pose proof (pow2_pos e). lra. }
  pose proof (exponent_spec x Hnz) as [Hlo' Hhi'].
  assert (Double.exponent x < e + 1) by (apply pow2_lt_inv; lra).
  assert (e < Double.exponent x + 1) by (apply pow2_lt_inv; lra).
  lia.
Qed.

Lemma exponent_comp : Proper (Qeq ==> eq) Double.exponent.
Proof.
  intros x y E. destruct (Qeq_dec x 0) as [Hx|Hx].
  - assert (Hy : (y == 0)%Q) by now rewrite <- E.
    unfold Double.exponent.
    replace (Qnum x) with 0 by (destruct x; unfold Qeq in Hx; cbn in *; lia).
    replace (Qnum y) with 0 by (destruct y; unfold Qeq in Hy; cbn in *; lia).
    reflexivity.
  - apply exponent_unique. rewrite E. apply exponent_spec. now rewrite <- E.
Qed.

#[export] Existing Instance exponent_comp.

Lemma round_comp : Proper (Qeq ==> eq) round.
Proof.
  intros x y E. unfold round.
  assert (Hfl : Qfloor x = Qfloor y) by now rewrite E.
  assert (Hc : (x - inject_Z (Qfloor x) ?= 1 # 2)%Q
               = (y - inject_Z (Qfloor y) ?= 1 # 2)%Q)
    by (rewrite Hfl; now rewrite E).
  now rewrite Hc, Hfl.
Qed.

#[export] Existing Instance round_comp.

Lemma ulp_exponent_comp : Proper (Qeq ==> eq) Double.ulp_exponent.
Proof. intros x y E. unfold Double.ulp_exponent. now rewrite E. Qed.

#[export] Existing Instance ulp_exponent_comp.

Lemma rounded_comp : Proper (Qeq ==> Qeq) Double.rounded.
Proof. intros x y E. unfold Double.rounded. now rewrite E. Qed.

#[export] Existing Instance rounded_comp.

Lemma negative_lt (x : Q) : Double.negative x = true <-> (x < 0)%Q.
Proof.
  unfold Double.negative, Qlt. destruct x as [n d]. cbn.
  rewrite Z.ltb_lt. lia.
Qed.

Lemma negative_comp : Proper (Qeq ==> eq) Double.negative.
Proof.
  intros x y E. apply eq_true_iff_eq. rewrite !negative_lt. now rewrite E.
Qed.

#[export] Existing Instance negative_comp.

Lemma nearest_comp : Proper (Qeq ==> eq) Double.nearest.
Proof.
  intros x y E. unfold Double.nearest.
  rewrite (Qred_complete _ _ (rounded_comp x y E)).
  rewrite (negative_comp x y E).
  replace (Qle_bool (2 ^ 1024) (Qabs (Double.rounded x)))
    with (Qle_bool (2 ^ 1024) (Qabs (Double.rounded y))); [reflexivity|].
  apply eq_true_iff_eq. rewrite !Qle_bool_iff. now rewrite E.
Qed.

#[export] Existing Instance nearest_comp.

Section Rounded.

Variable x : Q.

Lemma ulp_exponent_min : -1074 <= Double.ulp_exponent x.
Proof. unfold Double.ulp_exponent. lia. Qed.

(** Rounding moves a number by at most half a unit in the last place. *)
Lemma rounded_error : (Qabs (Double.rounded x - x) <= 2 ^ Double.ulp_exponent x / 2)%Q.
Proof.
  unfold Double.rounded. set (k := Double.ulp_exponent x).
  pose proof (round_nearest (x / 2 ^ k)) as H. unfold nearest_integer in H.
  pose proof (pow2_pos k) as Hk.
  setoid_replace (inject_Z (round (x / 2 ^ k)) * 2 ^ k - x)%Q
    with ((inject_Z (round (x / 2 ^ k)) - x / 2 ^ k) * 2 ^ k)%Q
    by (field; lra).
  rewrite Qabs_Qmult, (Qabs_pos (2 ^ k)) by lra.
  setoid_replace (2 ^ k / 2)%Q with ((1 # 2) * 2 ^ k)%Q by field.
  apply Qmult_le_compat_r; [exact H | lra].
Qed.

(** In the normal range that is at most [2^-53] of the number. *)
Lemma rounded_relative_error :
  (2 ^ (-1022) <= Qabs x)%Q ->
  (Qabs (Double.rounded x - x) <= 2 ^ (-53) * Qabs x)%Q.
Proof.
  intro Hx.
  assert (Hnz : ~ (x == 0)%Q).
  { intro E. rewrite E in Hx. pose proof (pow2_pos (-1022)).
    change (Qabs 0) with 0%Q in Hx. lra. }
  pose proof (exponent_spec x Hnz) as [Hlo Hhi].
  assert (He : -1022 <= Double.exponent x).
  { assert (H : -1022 < Double.exponent x + 1); [|lia].
    apply pow2_lt_inv. lra. }
  apply Qle_trans with (2 ^ Double.ulp_exponent x / 2)%Q; [apply rounded_error|].
  unfold Double.ulp_exponent. rewrite Z.max_l by lia.
  setoid_replace (2 ^ (Double.exponent x - 52) / 2)%Q
    with (2 ^ (-53) * 2 ^ Double.exponent x)%Q.
  - apply Qmult_le_l; [apply pow2_pos | exact Hlo].
  - replace (Double.exponent x - 52) with (-53 + Double.exponent x + 1) by lia.
    rewrite pow2_succ, pow2_add. field.
Qed.

(** The mantissa has at most 53 bits. *)
Lemma mantissa_bound :
  - 2 ^ 53 <= round (x / 2 ^ Double.ulp_exponent x) <= 2 ^ 53.
Proof.
  set (k := Double.ulp_exponent x). pose proof (pow2_pos k) as Hk.
  assert (Hx : (Qabs x <= 2 ^ (k + 53))%Q).
  { destruct (Qeq_dec x 0) as [E|Hnz].
    - rewrite E. change (Qabs 0) with 0%Q. pose proof (pow2_pos (k + 53)). lra.
    - pose proof (exponent_spec x Hnz) as [_ Hhi].
      apply Qlt_le_weak, Qlt_le_trans with (2 ^ (Double.exponent x + 1))%Q; [exact Hhi|].
      apply pow2_le. unfold k, Double.ulp_exponent. lia. }
  rewrite pow2_add in Hx. apply Qabs_Qle_condition in Hx.
  assert (Hs : (- 2 ^ 53 <= x / 2 ^ k <= 2 ^ 53)%Q).
  { split.
    - apply Qle_shift_div_l; [exact Hk | lra].
    - apply Qle_shift_div_r; [exact Hk | lra]. }
  destruct Hs as [Hs1 Hs2].
  apply round_monotone in Hs1, Hs2.
  rewrite (round_integer (- 2 ^ 53)%Q (- 2 ^ 53)) in Hs1 by reflexivity.
  rewrite (round_integer (2 ^ 53)%Q (2 ^ 53)) in Hs2 by reflexivity.
  lia.
Qed.

End Rounded.

Section Representable.

(** A number with a mantissa of at most 53 bits and an exponent within
    range is left alone by the rounding. *)
Lemma rounded_exact (M k : Z) :
  - 2 ^ 53 <= M <= 2 ^ 53 -> -1074 <= k ->
  (Double.rounded (inject_Z M * 2 ^ k) == inject_Z M * 2 ^ k)%Q.
Proof.
  intros HM Hk. set (v := (inject_Z M * 2 ^ k)%Q).
  set (k' := Double.ulp_exponent v).
  assert (Hint : exists z : Z, (v / 2 ^ k' == inject_Z z)%Q).
  { pose proof (pow2_pos k) as Hpk. pose proof (pow2_pos k') as Hpk'.
    destruct (Z_le_gt_dec k' k) as [Hle|Hgt].
    - exists (M * 2 ^ (k - k')).
      rewrite inject_Z_mult, pow2_inject by lia. unfold v.
      replace k with ((k - k') + k') at 1 by lia.
      rewrite pow2_add. field. lra.
    - assert (Hnz : ~ (v == 0)%Q).
      { intro E. unfold k' in Hgt. rewrite E in Hgt.
        unfold Double.ulp_exponent, Double.exponent in Hgt. cbn in Hgt. lia. }
      pose proof (exponent_spec v Hnz) as [Hlo _].
      assert (Habs : (Qabs v == inject_Z (Z.abs M) * 2 ^ k)%Q).
      { unfold v. rewrite Qabs_Qmult, (Qabs_pos (2 ^ k)) by lra.
        now rewrite Qabs_inject_Z. }
      assert (HMq : (inject_Z (Z.abs M) <= 2 ^ 53)%Q).
      { rewrite <- (pow2_inject 53) by lia. rewrite <- Zle_Qle. lia. }
      assert (He : Double.exponent v <= k + 53).
      { assert (H : Double.exponent v < k + 53 + 1); [|lia].
        apply pow2_lt_inv.
        apply Qle_lt_trans with (Qabs v); [exact Hlo|].
        rewrite Habs, pow2_succ, (pow2_add k 53).
        apply Qle_lt_trans with (2 ^ 53 * 2 ^ k)%Q.
        - apply Qmult_le_compat_r; [exact HMq | lra].
        - pose proof (pow2_pos 53). nra. }
      assert (He' : Double.exponent v = k + 53)
        by (unfold k', Double.ulp_exponent in Hgt; lia).
      assert (Hk' : k' = k + 1) by (unfold k', Double.ulp_exponent; lia).
      assert (HabsM : Z.abs M = 2 ^ 53).
      { assert (H : 2 ^ 53 <= Z.abs M); [|lia].
        rewrite Zle_Qle, pow2_inject by lia.
        rewrite He', Habs, (pow2_add k 53) in Hlo.
        apply Qmult_le_r with (z := (2 ^ k)%Q); [exact Hpk|].
        rewrite (Qmult_comm (2 ^ 53)). exact Hlo. }
      exists (M / 2).
      assert (HM2 : M = 2 * (M / 2)).
      { destruct (Z.abs_eq_or_opp M) as [E|E]; rewrite HabsM in E.
        - rewrite <- E. reflexivity.
        - replace M with (- 2 ^ 53) by lia. reflexivity. }
      rewrite Hk', pow2_succ. unfold v. rewrite HM2 at 1.
      rewrite inject_Z_mult. field. lra. }
  destruct Hint as [z Hz].
  unfold Double.rounded. fold k'.
  rewrite (round_integer _ z Hz), <- Hz. apply pow2_scale.
Qed.

Lemma rounded_integer (z : Z) :
  - 2 ^ 53 <= z <= 2 ^ 53 ->
  (Double.rounded (inject_Z z) == inject_Z z)%Q.
Proof.
  intro Hz. pose proof (rounded_exact z 0 Hz ltac:(lia)) as H.
  change (2 ^ 0)%Q with 1%Q in H. now rewrite Qmult_1_r in H.
Qed.

End Representable.

Section Nearest.

Lemma Qred_inject_Z (z : Z) : Qred (inject_Z z) = inject_Z z.
Proof.
  unfold Qred, inject_Z.
  pose proof (Z.ggcd_gcd z 1) as Hg.
  pose proof (Z.ggcd_correct_divisors z 1) as Hd.
  destruct (Z.ggcd z 1) as (g & a & b). cbn in *.
  rewrite Z.gcd_1_r in Hg. subst g. destruct Hd as [Ha Hb].
  replace a with z by lia. replace b with 1 by lia. reflexivity.
Qed.

Lemma nearest_finite (x : Q) :
  (Qabs (Double.rounded x) < 2 ^ 1024)%Q ->
  Double.nearest x = Double.Finite (Qred (Double.rounded x)).
Proof.
  intro H. unfold Double.nearest.
  replace (Qle_bool (2 ^ 1024) (Qabs (Double.rounded x))) with false; [reflexivity|].
  symmetry. apply not_true_iff_false. rewrite Qle_bool_iff. lra.
Qed.

Lemma nearest_infinite (x : Q) :
  (2 ^ 1024 <= Qabs (Double.rounded x))%Q ->
  Double.nearest x = Double.Infinity (Double.negative x).
Proof.
  intro H. unfold Double.nearest.
  now rewrite (proj2 (Qle_bool_iff _ _) H).
Qed.

Lemma nearest_value (x q : Q) :
  Double.nearest x = Double.Finite q ->
  (q == Double.rounded x)%Q /\ (Qabs (Double.rounded x) < 2 ^ 1024)%Q.
Proof.
  unfold Double.nearest.
  destruct (Qle_bool (2 ^ 1024) (Qabs (Double.rounded x))) eqn:E; [discriminate|].
  intro H. assert (Hq : q = Qred (Double.rounded x)) by congruence.
  subst q. split; [apply Qred_correct|].
  apply Qnot_le_lt. intro Hle. apply Qle_bool_iff in Hle. congruence.
Qed.

(** The result of an operation is never NaN. *)
Lemma nearest_not_nan (x : Q) : Double.nearest x <> Double.NaN.
Proof.
  unfold Double.nearest.
  now destruct (Qle_bool (2 ^ 1024) (Qabs (Double.rounded x))).
Qed.

(** An [int] that a double can hold converts to itself. *)
Lemma of_int_representable (z : Z) :
  (Double.rounded (inject_Z z) == inject_Z z)%Q ->
  (Qabs (inject_Z z) < 2 ^ 1024)%Q ->
  Double.of_int z = Ok (Double.Finite (inject_Z z)).
Proof.
  intros Hr Hb. unfold Double.of_int.
  rewrite nearest_finite by now rewrite Hr.
  now rewrite (Qred_complete _ _ Hr), Qred_inject_Z.
Qed.

Lemma of_int_exact (z : Z) :
  - 2 ^ 53 <= z <= 2 ^ 53 ->
  Double.of_int z = Ok (Double.Finite (inject_Z z)).
Proof.
  intro Hz. apply of_int_representable; [now apply rounded_integer|].
  rewrite Qabs_inject_Z.
  apply Qle_lt_trans with (2 ^ 53)%Q; [|now apply pow2_lt].
  rewrite <- (pow2_inject 53), <- Zle_Qle by lia. lia.
Qed.

(** The integer nearest to a double is an [int] a double can hold: the
    conversion back is exact. *)
Lemma of_int_round (x q : Q) :
  Double.nearest x = Double.Finite q ->
  Double.of_int (round q) = Ok (Double.Finite (inject_Z (round q))).
Proof.
  intro H. apply nearest_value in H. destruct H as [Hq Hfin].
  pose proof (mantissa_bound x) as HM.
  pose proof (ulp_exponent_min x) as Hk.
  unfold Double.rounded in Hq, Hfin.
  set (k := Double.ulp_exponent x) in *.
  set (M := round (x / 2 ^ k)) in *.
  pose proof (pow2_pos k) as Hpk.
  destruct (Z_le_gt_dec 0 k) as [Hpos|Hneg].
  - assert (Hint : (q == inject_Z (M * 2 ^ k))%Q)
      by (rewrite Hq, inject_Z_mult, pow2_inject by lia; reflexivity).
    rewrite (round_integer q _ Hint).
    apply of_int_representable.
    + rewrite inject_Z_mult, pow2_inject by lia. now apply rounded_exact.
    + now rewrite inject_Z_mult, pow2_inject by lia.
  - apply of_int_exact.
    assert (Hb : (- 2 ^ 53 <= q <= 2 ^ 53)%Q).
    { assert (HMq : (- 2 ^ 53 <= inject_Z M <= 2 ^ 53)%Q).
      { rewrite <- (pow2_inject 53), <- inject_Z_opp, <- !Zle_Qle by lia. lia. }
      assert (Hk1 : (2 ^ k <= 1)%Q) by (change 1%Q with (2 ^ 0)%Q; apply pow2_le; lia).
      rewrite Hq. pose proof (pow2_pos 53). split; nra. }
    destruct Hb as [Hb1 Hb2].
    apply round_monotone in Hb1, Hb2.
    rewrite (round_integer (- 2 ^ 53)%Q (- 2 ^ 53)) in Hb1 by reflexivity.
    rewrite (round_integer (2 ^ 53)%Q (2 ^ 53)) in Hb2 by reflexivity.
    lia.
Qed.

End Nearest.

Section Monotone.

Lemma exponent_monotone (x y : Q) :
  ~ (x == 0)%Q -> (Qabs x <= Qabs y)%Q -> Double.exponent x <= Double.exponent y.
Proof.
  intros Hx Hxy.
  assert (Hy : ~ (y == 0)%Q).
  { intro E. rewrite E in Hxy. change (Qabs 0) with 0%Q in Hxy.
    pose proof (exponent_spec x Hx) as [H _]. pose proof (pow2_pos (Double.exponent x)).
    lra. }
  pose proof (exponent_spec x Hx) as [Hlo _].
  pose proof (exponent_spec y Hy) as [_ Hhi].
  assert (Double.exponent x < Double.exponent y + 1) by (apply pow2_lt_inv; lra).
  lia.
Qed.

Lemma rounded_nonneg (x : Q) : (0 <= x)%Q -> (0 <= Double.rounded x)%Q.
Proof.
  intro Hx. unfold Double.rounded.
  pose proof (pow2_pos (Double.ulp_exponent x)) as Hk.
  apply Qmult_le_0_compat; [|lra].
  rewrite <- (Zle_Qle 0). apply round_nonneg.
  apply Qle_shift_div_l; [exact Hk | lra].
Qed.

Lemma rounded_nonpos (x : Q) : (x <= 0)%Q -> (Double.rounded x <= 0)%Q.
Proof.
  intro Hx. unfold Double.rounded.
  pose proof (pow2_pos (Double.ulp_exponent x)) as Hk.
  assert (H : round (x / 2 ^ Double.ulp_exponent x) <= 0).
  { assert (H0 : (x / 2 ^ Double.ulp_exponent x <= 0)%Q)
      by (apply Qle_shift_div_r; [exact Hk | lra]).
    apply round_monotone in H0.
    now rewrite (round_integer 0%Q 0) in H0 by reflexivity. }
  rewrite (Zle_Qle _ 0) in H. change (inject_Z 0) with 0%Q in H. nra.
Qed.

(** The scaled number and its mantissa, between the powers of two around
    it. *)
Lemma scaled_monotone (x y : Q) (k : Z) :
  (x <= y)%Q ->
  (inject_Z (round (x / 2 ^ k)) * 2 ^ k <= inject_Z (round (y / 2 ^ k)) * 2 ^ k)%Q.
Proof.
  intro H. pose proof (pow2_pos k) as Hk.
  apply Qmult_le_compat_r; [|lra].
  rewrite <- Zle_Qle. apply round_monotone.
  apply Qmult_le_compat_r; [exact H|].
  apply Qlt_le_weak, Qinv_lt_0_compat, Hk.
Qed.

Lemma round_le_integer (t : Q) (z : Z) : (t <= inject_Z z)%Q -> round t <= z.
Proof.
  intro H. apply round_monotone in H.
  now rewrite (round_integer (inject_Z z) z) in H by reflexivity.
Qed.

Lemma round_ge_integer (t : Q) (z : Z) : (inject_Z z <= t)%Q -> z <= round t.
Proof.
  intro H. apply round_monotone in H.
  now rewrite (round_integer (inject_Z z) z) in H by reflexivity.
Qed.

Lemma scaled_le_pow2 (x : Q) (k j : Z) :
  0 <= j -> (x <= 2 ^ (k + j))%Q ->
  (inject_Z (round (x / 2 ^ k)) * 2 ^ k <= 2 ^ (k + j))%Q.
Proof.
  intros Hj H. pose proof (pow2_pos k) as Hk.
  assert (Hr : round (x / 2 ^ k) <= 2 ^ j).
  { apply round_le_integer. rewrite pow2_inject by exact Hj.
    apply Qle_shift_div_r; [exact Hk|]. rewrite pow2_add in H. lra. }
  rewrite Zle_Qle, pow2_inject in Hr by exact Hj.
  rewrite pow2_add. nra.
Qed.

Lemma scaled_ge_pow2 (x : Q) (k j : Z) :
  0 <= j -> (2 ^ (k + j) <= x)%Q ->
  (2 ^ (k + j) <= inject_Z (round (x / 2 ^ k)) * 2 ^ k)%Q.
Proof.
  intros Hj H. pose proof (pow2_pos k) as Hk.
  assert (Hr : 2 ^ j <= round (x / 2 ^ k)).
  { apply round_ge_integer. rewrite pow2_inject by exact Hj.
    apply Qle_shift_div_l; [exact Hk|]. rewrite pow2_add in H. lra. }
  rewrite Zle_Qle, pow2_inject in Hr by exact Hj.
  rewrite pow2_add. nra.
Qed.

Lemma scaled_ge_opp_pow2 (x : Q) (k j : Z) :
  0 <= j -> (- 2 ^ (k + j) <= x)%Q ->
  (- 2 ^ (k + j) <= inject_Z (round (x / 2 ^ k)) * 2 ^ k)%Q.
Proof.
  intros Hj H. pose proof (pow2_pos k) as Hk.
  assert (Hr : - 2 ^ j <= round (x / 2 ^ k)).
  { apply round_ge_integer. rewrite inject_Z_opp, pow2_inject by exact Hj.
    apply Qle_shift_div_l; [exact Hk|]. rewrite pow2_add in H. lra. }
  rewrite Zle_Qle, inject_Z_opp, pow2_inject in Hr by exact Hj.
  rewrite pow2_add. nra.
Qed.

Lemma scaled_le_opp_pow2 (x : Q) (k j : Z) :
  0 <= j -> (x <= - 2 ^ (k + j))%Q ->
  (inject_Z (round (x / 2 ^ k)) * 2 ^ k <= - 2 ^ (k + j))%Q.
Proof.
  intros Hj H. pose proof (pow2_pos k) as Hk.
  assert (Hr : round (x / 2 ^ k) <= - 2 ^ j).
  { apply round_le_integer. rewrite inject_Z_opp, pow2_inject by exact Hj.
    apply Qle_shift_div_r; [exact Hk|]. rewrite pow2_add in H. lra. }
  rewrite Zle_Qle, inject_Z_opp, pow2_inject in Hr by exact Hj.
  rewrite pow2_add. nra.
Qed.

(** Rounding to the nearest double keeps the order. *)
Lemma rounded_monotone (x y : Q) :
  (x <= y)%Q -> (Double.rounded x <= Double.rounded y)%Q.
Proof.
  intro Hxy.
  destruct (Qlt_le_dec 0 x) as [Hx|Hx].
  - (* both positive *)
    assert (Hnx : ~ (x == 0)%Q) by lra. assert (Hny : ~ (y == 0)%Q) by lra.
    pose proof (exponent_spec x Hnx) as [Hxlo Hxhi].
    pose proof (exponent_spec y Hny) as [Hylo Hyhi].
    rewrite Qabs_pos in Hxlo, Hxhi, Hylo, Hyhi by lra.
    assert (He : Double.exponent x <= Double.exponent y)
      by (apply exponent_monotone; [exact Hnx | rewrite !Qabs_pos by lra; exact Hxy]).
    unfold Double.rounded, Double.ulp_exponent.
    set (ex := Double.exponent x) in *. set (ey := Double.exponent y) in *.
    destruct (Z.eq_dec (Z.max ex (-1022)) (Z.max ey (-1022))) as [E|E].
    + rewrite E. now apply scaled_monotone.
    + apply Qle_trans with (2 ^ (Z.max ex (-1022) - 52 + 53))%Q.
      * apply scaled_le_pow2; [lia|].
        apply Qlt_le_weak, Qlt_le_trans with (2 ^ (ex + 1))%Q; [exact Hxhi|].
        apply pow2_le. lia.
      * apply Qle_trans with (2 ^ (Z.max ey (-1022) - 52 + 52))%Q;
          [apply pow2_le; lia|].
        apply scaled_ge_pow2; [lia|].
        replace (Z.max ey (-1022) - 52 + 52) with ey by lia. exact Hylo.
  - destruct (Qlt_le_dec y 0) as [Hy|Hy].
    + (* both negative *)
      assert (Hnx : ~ (x == 0)%Q) by lra. assert (Hny : ~ (y == 0)%Q) by lra.
      pose proof (exponent_spec x Hnx) as [Hxlo Hxhi].
      pose proof (exponent_spec y Hny) as [Hylo Hyhi].
      rewrite Qabs_neg in Hxlo, Hxhi, Hylo, Hyhi by lra.
      assert (He : Double.exponent y <= Double.exponent x)
        by (apply exponent_monotone; [exact Hny | rewrite !Qabs_neg by lra; lra]).
      unfold Double.rounded, Double.ulp_exponent.
      set (ex := Double.exponent x) in *. set (ey := Double.exponent y) in *.
      destruct (Z.eq_dec (Z.max ex (-1022)) (Z.max ey (-1022))) as [E|E].
      * rewrite E. now apply scaled_monotone.
      * apply Qle_trans with (- 2 ^ (Z.max ex (-1022) - 52 + 52))%Q.
        -- apply scaled_le_opp_pow2; [lia|].
           replace (Z.max ex (-1022) - 52 + 52) with ex by lia. lra.
        -- apply Qle_trans with (- 2 ^ (Z.max ey (-1022) - 52 + 53))%Q.
           ++ apply Qopp_le_compat. apply pow2_le. lia.
           ++ apply scaled_ge_opp_pow2; [lia|].
              assert (H : (2 ^ (ey + 1) <= 2 ^ (Z.max ey (-1022) - 52 + 53))%Q)
                by (apply pow2_le; lia).
              lra.
    + apply Qle_trans with 0%Q; [now apply rounded_nonpos | now apply rounded_nonneg].
Qed.

End Monotone.

Section RoundTrip.

(** The only integer within less than a half of a number is its rounding. *)
Lemma round_unique (y : Q) (d : Z) :
  (Qabs (y - inject_Z d) < 1 # 2)%Q -> round y = d.
Proof.
  intro H. apply Qabs_Qlt_condition in H.
  pose proof (round_nearest y) as Hn. unfold nearest_integer in Hn.
  apply Qabs_Qle_condition in Hn.
  assert (H1 : (inject_Z (round y - d) < inject_Z 1)%Q).
  { rewrite inject_Z_minus. change (inject_Z 1) with 1%Q. lra. }
  assert (H2 : (inject_Z (-1) < inject_Z (round y - d))%Q).
  { rewrite inject_Z_minus. change (inject_Z (-1)) with (-1)%Q. lra. }
  rewrite <- Zlt_Qlt in H1, H2. lia.
Qed.

Lemma relative_bounds (x : Q) :
  (2 ^ (-1022) <= x)%Q ->
  ((1 - (1 # 9007199254740992)) * x <= Double.rounded x
   <= (1 + (1 # 9007199254740992)) * x)%Q.
Proof.
  intro Hx. pose proof (pow2_pos (-1022)) as Hp.
  pose proof (rounded_relative_error x) as H.
  rewrite (Qabs_pos x) in H by lra. specialize (H Hx).
  apply Qabs_Qle_condition in H.
  change (2 ^ (-53))%Q with (1 # 9007199254740992)%Q in H.
  lra.
Qed.

Variable r : Q.
Variable d : Z.

Hypothesis divisor_range : 1 <= d <= 2 ^ 50.
Hypothesis divisor_below_rate : (inject_Z d <= r)%Q.
Hypothesis rate_finite : (r < 2 ^ 1023)%Q.

(** Dividing the rate by a divisor and the rate by the quotient, both in
    double precision, gives the divisor back within less than a half. *)
Lemma divisor_round_trip :
  exists f q : Q,
    Double.nearest (r / inject_Z d) = Double.Finite f /\
    (0 < f)%Q /\
    Double.nearest (r / f) = Double.Finite q /\
    round q = d.
Proof.
  assert (HD1 : (1 <= inject_Z d)%Q).
  { change 1%Q with (inject_Z 1). rewrite <- Zle_Qle. lia. }
  assert (HD2 : (inject_Z d <= 1125899906842624)%Q).
  { change 1125899906842624%Q with (inject_Z (2 ^ 50)). rewrite <- Zle_Qle. lia. }
  assert (Hsmall : (2 ^ (-1022) <= 1 # 4)%Q).
  { change (1 # 4)%Q with (2 ^ (-2))%Q. apply pow2_le. lia. }
  assert (Hbig : (2 ^ 1023 * 2 == 2 ^ 1024)%Q) by reflexivity.
  assert (Hbig' : (1125899906842624 * 4 <= 2 ^ 1024)%Q).
  { change (1125899906842624 * 4)%Q with (2 ^ 52)%Q. apply pow2_le. lia. }
  set (x1 := (r / inject_Z d)%Q).
  assert (Hx1 : (x1 * inject_Z d == r)%Q) by (unfold x1; field; lra).
  assert (Hx1lo : (1 <= x1)%Q)
    by (unfold x1; apply Qle_shift_div_l; lra).
  assert (Hx1hi : (x1 <= r)%Q)
    by (unfold x1; apply Qle_shift_div_r; [lra | nra]).
  pose proof (relative_bounds x1 ltac:(lra)) as [Hy1lo Hy1hi].
  set (y1 := Double.rounded x1) in *.
  assert (Hfin1 : (Qabs y1 < 2 ^ 1024)%Q)
    by (rewrite Qabs_pos by lra; lra).
  exists (Qred y1).
  pose proof (Qred_correct y1) as Hf. set (f := Qred y1) in *.
  assert (Hfpos : (0 < f)%Q) by (rewrite Hf; lra).
  set (x2 := (r / f)%Q).
  assert (Hx2 : (x2 * y1 == r)%Q) by (unfold x2; rewrite Hf; field; lra).
  assert (Hx2pos : (0 < x2)%Q).
  { unfold x2. apply Qlt_shift_div_l; [exact Hfpos | lra]. }
  assert (Hx2lo : (inject_Z d <= (1 + (1 # 9007199254740992)) * x2)%Q) by nra.
  assert (Hx2hi : ((1 - (1 # 9007199254740992)) * x2 <= inject_Z d)%Q) by nra.
  pose proof (relative_bounds x2 ltac:(lra)) as [Hy2lo Hy2hi].
  set (y2 := Double.rounded x2) in *.
  assert (Hfin2 : (Qabs y2 < 2 ^ 1024)%Q)
    by (rewrite Qabs_pos by lra; lra).
  exists (Qred y2). split; [now apply nearest_finite|].
  split; [exact Hfpos|]. split; [now apply nearest_finite|].
  apply round_unique. rewrite (Qred_correct y2).
  apply Qabs_Qlt_condition. lra.
Qed.

End RoundTrip.

(** * The cycle parameter calculator *)

Section Finite.

Lemma rounded_pow2 (k : Z) : -1074 <= k -> (Double.rounded (2 ^ k) == 2 ^ k)%Q.
Proof.
  intro Hk. pose proof (rounded_exact 1 k ltac:(lia) Hk) as H.
  change (inject_Z 1) with 1%Q in H. now rewrite !Qmult_1_l in H.
Qed.

Lemma rounded_opp_pow2 (k : Z) :
  -1074 <= k -> (Double.rounded (- 2 ^ k) == - 2 ^ k)%Q.
Proof.
  intro Hk. pose proof (rounded_exact (-1) k ltac:(lia) Hk) as H.
  change (inject_Z (-1)) with (-1)%Q in H.
  assert (E : (-1 * 2 ^ k == - 2 ^ k)%Q) by ring.
  now rewrite !E in H.
Qed.

(** A result of magnitude at most [2^1023] does not overflow. *)
Lemma rounded_bounded (x : Q) :
  (Qabs x <= 2 ^ 1023)%Q -> (Qabs (Double.rounded x) <= 2 ^ 1023)%Q.
Proof.
  intro H. apply Qabs_Qle_condition in H. destruct H as [Hlo Hhi].
  apply rounded_monotone in Hlo, Hhi.
  rewrite rounded_opp_pow2 in Hlo by lia.
  rewrite rounded_pow2 in Hhi by lia.
  apply Qabs_Qle_condition. now split.
Qed.

Lemma nearest_bounded (x : Q) :
  (Qabs x <= 2 ^ 1023)%Q ->
  Double.nearest x = Double.Finite (Qred (Double.rounded x)).
Proof.
  intro H. apply nearest_finite.
  apply Qle_lt_trans with (2 ^ 1023)%Q; [now apply rounded_bounded|].
  apply pow2_lt. lia.
Qed.

Lemma round_bounded (x : Q) :
  (Qabs x <= 2 ^ 1023)%Q -> (Qabs (inject_Z (round x)) <= 2 ^ 1023)%Q.
Proof.
  intro H. apply Qabs_Qle_condition in H. destruct H as [Hlo Hhi].
  assert (E : (2 ^ 1023 == inject_Z (2 ^ 1023))%Q)
    by (symmetry; apply pow2_inject; lia).
  rewrite E in Hlo, Hhi. rewrite E. rewrite <- inject_Z_opp in Hlo.
  apply round_ge_integer in Hlo. apply round_le_integer in Hhi.
  apply Qabs_Qle_condition. rewrite <- inject_Z_opp, <- !Zle_Qle. lia.
Qed.

End Finite.

Section CycleParams.

(** The call on finite doubles whose quotient and product do not
    overflow. *)
Lemma calculate_cycle_params_finite (r f d q p : Q) :
  ~ (f == 0)%Q ->
  Double.nearest (r / f) = Double.Finite q ->
  Double.nearest (inject_Z (round q) * d) = Double.Finite p ->
  calculate_cycle_params r f d
  = Ok (round q, clamp 1 (round q - 1) (round p)).
Proof.
  intros Hf Hq Hp. unfold calculate_cycle_params, Double.truediv.
  rewrite eqb_float_false by exact Hf. cbn [bind]. rewrite Hq.
  cbn [bind Double.round]. rewrite (of_int_round _ _ Hq).
  cbn [bind Double.mul]. rewrite Hp. reflexivity.
Qed.

(** What a returned pair tells about the call. *)
Lemma calculate_cycle_params_returned (r f d : Q) (frames_per_cycle on_frames : Z) :
  calculate_cycle_params r f d = Ok (frames_per_cycle, on_frames) ->
  exists q p : Q,
    ~ (f == 0)%Q /\
    Double.nearest (r / f) = Double.Finite q /\
    frames_per_cycle = round q /\
    Double.nearest (inject_Z frames_per_cycle * d) = Double.Finite p /\
    on_frames = clamp 1 (frames_per_cycle - 1) (round p).
Proof.
  unfold calculate_cycle_params, Double.truediv.
  destruct (eqb_float f 0) eqn:Ef; [discriminate|].
  cbn [bind].
  destruct (Double.nearest (r / f)) as [q| |] eqn:Eq; cbn [bind Double.round];
    try discriminate.
  rewrite (of_int_round _ _ Eq). cbn [bind Double.mul].
  destruct (Double.nearest (inject_Z (round q) * d)) as [p| |] eqn:Ep;
    cbn [bind Double.round]; try discriminate.
  intro H. injection H as <- <-.
  exists q, p. repeat split; try assumption.
  intro E. apply eqb_float_eq in E. congruence.
Qed.

(** Whatever the floats, a returned pair went through the clamp. *)
Lemma calculate_cycle_params_clamped
  (refresh_rate freq duty_cycle : Double.float) (frames_per_cycle on_frames : Z) :
  calculate_cycle_params refresh_rate freq duty_cycle
  = Ok (frames_per_cycle, on_frames) ->
  exists rounded : Z, on_frames = clamp 1 (frames_per_cycle - 1) rounded.
Proof.
  unfold calculate_cycle_params.
  destruct (Double.truediv refresh_rate freq) as [q|]; [|discriminate].
  cbn [bind]. destruct (Double.round q) as [k|]; [|discriminate].
  cbn [bind]. destruct (Double.of_int k) as [frames|]; [|discriminate].
  cbn [bind].
  destruct (Double.round (Double.mul frames duty_cycle)) as [on|];
    [|discriminate].
  cbn [bind]. intro H. injection H as <- <-. now exists on.
Qed.

Lemma truediv_raises (a b : Double.float) (e : exn) :
  Double.truediv a b = Raise e ->
  e = ZeroDivisionError /\ exists f : Q, b = Double.Finite f /\ (f == 0)%Q.
Proof.
  unfold Double.truediv. destruct b as [f| |].
  - destruct (eqb_float f 0) eqn:E.
    + intro H. injection H as <-. split; [reflexivity|].
      exists f. split; [reflexivity|]. now apply eqb_float_eq.
    + destruct a; discriminate.
  - destruct a; discriminate.
  - discriminate.
Qed.

Lemma round_raises (x : Double.float) (e : exn) :
  Double.round x = Raise e -> e = OverflowError \/ e = ValueError.
Proof. destruct x; cbn; intro H; inversion H; auto. Qed.

Lemma of_int_raises (z : Z) (e : exn) :
  Double.of_int z = Raise e -> e = OverflowError.
Proof.
  unfold Double.of_int. destruct (Double.nearest (inject_Z z)); intro H;
    inversion H; reflexivity.
Qed.

(** The exceptions of the call: the division raises on a zero frequency
    only, and nothing else raises but [round] and the conversion of
    [frames_per_cycle] to a float. *)
Lemma calculate_cycle_params_raises
  (refresh_rate freq duty_cycle : Double.float) (e : exn) :
  calculate_cycle_params refresh_rate freq duty_cycle = Raise e ->
  (e = ZeroDivisionError /\
   exists f : Q, freq = Double.Finite f /\ (f == 0)%Q) \/
  e = OverflowError \/ e = ValueError.
Proof.
  unfold calculate_cycle_params.
  destruct (Double.truediv refresh_rate freq) as [q|e'] eqn:Ediv.
  2: { cbn [bind]. intro H. injection H as <-. left.
       now apply truediv_raises with refresh_rate. }
  cbn [bind]. destruct (Double.round q) as [k|e'] eqn:Er.
  2: { cbn [bind]. intro H. injection H as <-. right.
       now apply round_raises with q. }
  cbn [bind]. destruct (Double.of_int k) as [frames|e'] eqn:Ei.
  2: { cbn [bind]. intro H. injection H as <-. right. left.
       now apply of_int_raises with k. }
  cbn [bind].
  destruct (Double.round (Double.mul frames duty_cycle)) as [on|e'] eqn:Eon.
  2: { cbn [bind]. intro H. injection H as <-. right.
       now apply round_raises with (Double.mul frames duty_cycle). }
  discriminate.
Qed.

(** The product of the cycle length with a duty cycle of magnitude at most
    one does not overflow. *)
Lemma product_bounded (q d : Q) :
  (Qabs q <= 2 ^ 1023)%Q -> (Qabs d <= 1)%Q ->
  (Qabs (inject_Z (round q) * d) <= 2 ^ 1023)%Q.
Proof.
  intros Hq Hd. rewrite Qabs_Qmult.
  pose proof (round_bounded q Hq) as Hr.
  pose proof (Qabs_nonneg (inject_Z (round q))) as H0.
  pose proof (Qabs_nonneg d) as H1.
  apply Qle_trans with (Qabs (inject_Z (round q)) * 1)%Q; [|lra].
  rewrite !(Qmult_comm (Qabs (inject_Z (round q)))).
  now apply Qmult_le_compat_r.
Qed.

(** The call returns when the quotient does not overflow and the duty
    cycle has magnitude at most one. *)
Lemma calculate_cycle_params_value (r f d : Q) :
  ~ (f == 0)%Q -> (Qabs (r / f) <= 2 ^ 1023)%Q -> (Qabs d <= 1)%Q ->
  exists q p : Q,
    Double.nearest (r / f) = Double.Finite q /\
    (q == Double.rounded (r / f))%Q /\
    Double.nearest (inject_Z (round q) * d) = Double.Finite p /\
    (p == Double.rounded (inject_Z (round q) * d))%Q /\
    calculate_cycle_params r f d
    = Ok (round q, clamp 1 (round q - 1) (round p)).
Proof.
  intros Hf Hq Hd.
  pose proof (nearest_bounded _ Hq) as Eq.
  set (q := Qred (Double.rounded (r / f))) in *.
  assert (Hqv : (q == Double.rounded (r / f))%Q) by apply Qred_correct.
  assert (Hqb : (Qabs q <= 2 ^ 1023)%Q)
    by (rewrite Hqv; now apply rounded_bounded).
  pose proof (nearest_bounded _ (product_bounded q d Hqb Hd)) as Ep.
  exists q, (Qred (Double.rounded (inject_Z (round q) * d))).
  split; [exact Eq|]. split; [exact Hqv|]. split; [exact Ep|].
  split; [apply Qred_correct|].
  now apply calculate_cycle_params_finite.
Qed.

(** The cycle of a frequency that is the refresh rate over a divisor. *)
Lemma calculate_cycle_params_divisor (r duty : Q) (d : Z) :
  1 <= d -> (inject_Z d <= r)%Q -> (r <= 2 ^ 50)%Q -> (Qabs duty <= 1)%Q ->
  calculate_cycle_params r (Double.nearest (r / inject_Z d)) duty
  = Ok (cycle_of_divisor duty d).
Proof.
  intros Hd Hdr Hr Hduty.
  assert (HD : (inject_Z d <= 2 ^ 50)%Q) by lra.
  assert (Hd50 : d <= 2 ^ 50).
  { rewrite <- (pow2_inject 50) in HD by lia. now rewrite <- Zle_Qle in HD. }
  assert (Hr' : (r < 2 ^ 1023)%Q).
  { apply Qle_lt_trans with (2 ^ 50)%Q; [exact Hr | apply pow2_lt; lia]. }
  destruct (divisor_round_trip r d ltac:(lia) Hdr Hr')
    as (f & q & Ef & Hf & Eq & Hq).
  rewrite Ef.
  assert (Hb : (Qabs (inject_Z (round q) * duty) <= 2 ^ 1023)%Q).
  { rewrite Hq, Qabs_Qmult.
    pose proof (Qabs_nonneg duty) as H1.
    assert (H0 : (1 <= inject_Z d)%Q).
    { change 1%Q with (inject_Z 1). rewrite <- Zle_Qle. lia. }
    rewrite (Qabs_pos (inject_Z d)) by lra.
    pose proof (pow2_le 50 1023 ltac:(lia)) as Hp.
    apply Qle_trans with (inject_Z d * 1)%Q; [|lra].
    rewrite !(Qmult_comm (inject_Z d)).
    apply Qmult_le_compat_r; lra. }
  rewrite (calculate_cycle_params_finite r f duty q _
             ltac:(intro E; lra) Eq (nearest_bounded _ Hb)).
  unfold cycle_of_divisor. rewrite Hq.
  now rewrite (Qred_correct (Double.rounded (inject_Z d * duty))).
Qed.

End CycleParams.

(** C2, at the input where the code leaves the stated range: at a refresh
    rate of 60 and a frequency of 60 the cycle has one frame, the call
    returns one ON frame, and no OFF frame is left. *)
Theorem calculate_cycle_params_single_frame :
  exists frames_per_cycle on_frames : Z,
    calculate_cycle_params 60 60 (1 # 2) = Ok (frames_per_cycle, on_frames) /\
    frames_per_cycle = 1 /\ on_frames = 1 /\
    ~ (1 <= on_frames < frames_per_cycle).
Proof.
  exists 1, 1. split; [vm_compute; reflexivity|]. repeat split. lia.
Qed.

(** The integers returned are those of double precision: 0.35, 4.8 and 0.3
    are not doubles, and the quotient or the product computed from the
    doubles nearest to them is rounded to a tie that the exact value
    misses. *)
Example calculate_cycle_params_doubles :
  calculate_cycle_params 60 6 (Double.nearest (35 # 100)) = Ok (10, 4) /\
  calculate_cycle_params 60 (Double.nearest (48 # 10)) (1 # 2) = Ok (12, 6) /\
  calculate_cycle_params 60 12 (Double.nearest (3 # 10)) = Ok (5, 2).
Proof. repeat split; vm_compute; reflexivity. Qed.




(** X5: the failures of the call, on any floats.  A zero frequency makes
    the division raise; no other frequency does, and what else can raise
    is [round], on an infinity or a NaN.  Finite arguments with a non-zero
    frequency, a quotient that does not overflow and a duty cycle of
    magnitude at most one make the call return.  Every pair returned has at
    least one ON frame, and fewer ON frames than the cycle has unless it
    has exactly one.  A subnormal frequency overflows the quotient, and a
    NaN duty cycle reaches [round]. *)
Theorem calculate_cycle_params_failure
  (refresh_rate freq duty_cycle : Double.float) :
  (forall f : Q, freq = Double.Finite f -> (f == 0)%Q ->
     calculate_cycle_params refresh_rate freq duty_cycle
     = Raise ZeroDivisionError) /\
  (forall e : exn,
     calculate_cycle_params refresh_rate freq duty_cycle = Raise e ->
     (e = ZeroDivisionError /\
      exists f : Q, freq = Double.Finite f /\ (f == 0)%Q) \/
     e = OverflowError \/ e = ValueError) /\
  (forall r f d : Q,
     refresh_rate = Double.Finite r -> freq = Double.Finite f ->
     duty_cycle = Double.Finite d ->
     ~ (f == 0)%Q -> (Qabs (r / f) <= 2 ^ 1023)%Q -> (Qabs d <= 1)%Q ->
     exists frames_per_cycle on_frames : Z,
       calculate_cycle_params refresh_rate freq duty_cycle
       = Ok (frames_per_cycle, on_frames)) /\
  (forall frames_per_cycle on_frames : Z,
     calculate_cycle_params refresh_rate freq duty_cycle
     = Ok (frames_per_cycle, on_frames) ->
     1 <= on_frames /\ (on_frames = 1 \/ on_frames < frames_per_cycle)) /\
  calculate_cycle_params 60 (2 ^ (-1074))%Q (1 # 2) = Raise OverflowError /\
  calculate_cycle_params 60 10 Double.NaN = Raise ValueError.
Proof.
  split; [|split; [|split; [|split; [|split; vm_compute; reflexivity]]]].
  - intros f -> Hf. unfold calculate_cycle_params, Double.truediv.
    now rewrite (proj2 (eqb_float_eq f 0) Hf).
  - intro e. apply calculate_cycle_params_raises.
  - intros r f d -> -> -> Hf Hq Hd.
    destruct (calculate_cycle_params_value r f d Hf Hq Hd)
      as (q & p & _ & _ & _ & _ & H).
    rewrite H. eauto.
  - intros fpc on H. apply calculate_cycle_params_clamped in H.
    destruct H as [k ->]. unfold clamp. lia.
Qed.

Lemma calculate_cycle_params_failure_witness :
  calculate_cycle_params 60 0 (1 # 2) = Raise ZeroDivisionError /\
  (exists frames_per_cycle on_frames : Z,
     calculate_cycle_params 60 7 (99 # 100) = Ok (frames_per_cycle, on_frames)) /\
  1 <= 6 /\ (6 = 1 \/ 6 < 9).
Proof.
  split; [|split].
  - apply (calculate_cycle_params_failure 60 0 (1 # 2) : _ /\ _) with 0%Q;
      reflexivity.
  - destruct (calculate_cycle_params_failure 60 7 (99 # 100))
      as (_ & _ & H & _).
    apply (H 60 7 (99 # 100))%Q; try reflexivity.
    + discriminate.
    + vm_compute. congruence.
    + vm_compute. congruence.
  - destruct (calculate_cycle_params_failure 60 7 (Double.nearest (7 # 10)))
      as (_ & _ & _ & H & _).
    apply (H 9 6). vm_compute. reflexivity.
Defined.

(** X6: the cycle computed for a frequency that [calculate_frequencies]
    returned has exactly the divisor as its length: for the frequency of
    index [i], as the double it is in the program, the cycle has [m + i]
    frames, and [refresh_rate / frames_per_cycle] is that frequency again;
    with at least 2 frames per cycle as the minimum, it has at least one ON
    and one OFF frame.  The refresh rate is at most [2^50] and the duty
    cycle of magnitude at most one. *)
Theorem calculate_cycle_params_of_frequency
  (r : Q) (m n : Z) (freqs : list Q) (i : Z) (f duty : Q) :
  calculate_frequencies r m n = Ok freqs ->
  0 <= i -> nth_error freqs (Z.to_nat i) = Some f ->
  (r <= 2 ^ 50)%Q -> (Qabs duty <= 1)%Q ->
  exists on_frames : Z,
    calculate_cycle_params r (Double.nearest f) duty = Ok (m + i, on_frames) /\
    (r / inject_Z (m + i) == f)%Q /\
    (2 <= m -> 1 <= on_frames < m + i).
Proof.
  intros H Hi Hf Hr50 Hduty.
  apply calculate_frequencies_returned in H.
  destruct H as (Hr & Hm & Hn & Hfl & ->).
  assert (Hin : i < n).
  { assert (Hsome : nth_error
                        (map (fun d => (r / inject_Z d)%Q) (range m (m + n)))
                        (Z.to_nat i) <> None) by congruence.
    apply nth_error_Some in Hsome.
    rewrite length_map, range_length in Hsome. lia. }
  rewrite (nth_error_map_range (fun d => (r / inject_Z d)%Q)) in Hf by lia.
  injection Hf as <-.
  assert (Hle : (inject_Z (m + i) <= r)%Q).
  { apply Qle_trans with (inject_Z (Qfloor r)); [|apply Qfloor_le].
    rewrite <- Zle_Qle. lia. }
  rewrite (calculate_cycle_params_divisor r duty (m + i) ltac:(lia) Hle Hr50 Hduty).
  unfold cycle_of_divisor.
  eexists. split; [reflexivity|]. split; [reflexivity|].
  unfold clamp. lia.
Qed.

Lemma calculate_cycle_params_of_frequency_witness :
  exists on_frames : Z,
    calculate_cycle_params 60 (Double.nearest (60 / inject_Z 7)) (1 # 2)
    = Ok (3 + 4, on_frames) /\
    (60 / inject_Z (3 + 4) == 60 / inject_Z 7)%Q /\
    (2 <= 3 -> 1 <= on_frames < 3 + 4).
Proof.
  apply (calculate_cycle_params_of_frequency 60 3 5
           (map (fun d => (60 / inject_Z d)%Q) [3; 4; 5; 6; 7]) 4
           (60 / inject_Z 7) (1 # 2)).
  - reflexivity.
  - lia.
  - reflexivity.
  - vm_compute. congruence.
  - vm_compute. congruence.
Defined.

(** X7: at a given refresh rate and frequency a larger duty cycle never
    gives fewer ON frames, and does not change the cycle length. *)
Theorem calculate_cycle_params_duty_monotone
  (r f d1 d2 : Q) (fpc1 on1 fpc2 on2 : Z) :
  (0 < r)%Q -> (0 < f)%Q -> (d1 <= d2)%Q ->
  calculate_cycle_params r f d1 = Ok (fpc1, on1) ->
  calculate_cycle_params r f d2 = Ok (fpc2, on2) ->
  fpc1 = fpc2 /\ on1 <= on2.
Proof.
  intros Hr Hf Hd H1 H2.
  apply calculate_cycle_params_returned in H1, H2.
  destruct H1 as (q1 & p1 & _ & Eq1 & -> & Ep1 & ->).
  destruct H2 as (q2 & p2 & _ & Eq2 & -> & Ep2 & ->).
  assert (E : q2 = q1) by congruence. subst q2.
  split; [reflexivity|].
  apply nearest_value in Eq1, Ep1, Ep2.
  destruct Eq1 as [Hq _]. destruct Ep1 as [Hp1 _]. destruct Ep2 as [Hp2 _].
  assert (Hq0 : (0 <= q1)%Q).
  { rewrite Hq. apply rounded_nonneg.
    apply Qlt_le_weak, Qlt_shift_div_l; [exact Hf | lra]. }
  pose proof (round_nonneg _ Hq0) as Hfpc.
  assert (Hm : round p1 <= round p2).
  { apply round_monotone. rewrite Hp1, Hp2. apply rounded_monotone.
    rewrite (Qmult_comm _ d1), (Qmult_comm _ d2).
    apply Qmult_le_compat_r; [exact Hd|].
    rewrite (Zle_Qle 0) in Hfpc. exact Hfpc. }
  unfold clamp. lia.
Qed.

Lemma calculate_cycle_params_duty_monotone_witness : 6 = 6 /\ 2 <= 3.
Proof.
  apply (calculate_cycle_params_duty_monotone 120 20 (1 # 4) (1 # 2) 6 2 6 3);
    try (vm_compute; reflexivity).
  unfold Qle. simpl. lia.
Defined.

(** * The schedule of the SSVEP script *)

Lemma comprehension_map {A B : Type} (f : A -> result B) (g : A -> B)
  (xs : list A) :
  (forall x, In x xs -> f x = Ok (g x)) ->
  comprehension f xs = Ok (map g xs).
Proof.
  induction xs as [|x xs IH]; intro H; [reflexivity|].
  cbn [comprehension map]. rewrite (H x (or_introl eq_refl)). cbn [bind].
  now rewrite IH by (intros y Hy; apply H; now right).
Qed.

Lemma comprehension_nth {A B : Type} (f : A -> result B) (xs : list A) :
  forall (ys : list B) (i : nat) (x : A),
    comprehension f xs = Ok ys -> nth_error xs i = Some x ->
    exists y : B, nth_error ys i = Some y /\ f x = Ok y.
Proof.
  induction xs as [|x0 xs IH]; intros ys i x H Hx.
  - destruct i; discriminate.
  - cbn [comprehension] in H.
    destruct (f x0) as [y0|] eqn:E0; [|discriminate]. cbn [bind] in H.
    destruct (comprehension f xs) as [ys'|] eqn:E; [|discriminate].
    cbn [bind] in H. injection H as <-.
    destruct i as [|i].
    + injection Hx as <-. exists y0. now split.
    + cbn [nth_error] in *. now apply IH.
Qed.

Lemma generate_positions_length (n : Z) (positions : list (Q * Q)) :
  0 < n -> generate_positions n = Ok positions -> len positions = n.
Proof.
  intros Hn H.
  destruct (generate_positions_value n Hn)
    as (cols & rows & Hc & Hr & _ & Hrows & Hval).
  rewrite Hval in H. injection H as <-.
  pose proof (row_major_length rows cols ltac:(lia) ltac:(lia)) as Hlen.
  unfold len in *. rewrite length_firstn.
  unfold is_ceil_quotient in Hrows. lia.
Qed.

Section Schedule.

Variables (r : Q) (m n : Z).

Lemma cycles_value (duty : Q) :
  0 < m -> m + n <= Qfloor r + 1 -> (r <= 2 ^ 50)%Q -> (Qabs duty <= 1)%Q ->
  comprehension
    (fun freq => calculate_cycle_params r (Double.nearest freq) duty)
    (map (fun d => (r / inject_Z d)%Q) (range m (m + n)))
  = Ok (map (cycle_of_divisor duty) (range m (m + n))).
Proof.
  intros Hm Hfl Hr Hduty.
  assert (Hall : forall d, In d (range m (m + n)) ->
            calculate_cycle_params r (Double.nearest (r / inject_Z d)) duty
            = Ok (cycle_of_divisor duty d)).
  { intros d Hd. apply In_range in Hd.
    apply calculate_cycle_params_divisor; try assumption; [lia|].
    apply Qle_trans with (inject_Z (Qfloor r)); [|apply Qfloor_le].
    rewrite <- Zle_Qle. lia. }
  induction (range m (m + n)) as [|d ds IH]; [reflexivity|].
  cbn [map comprehension]. rewrite (Hall d (or_introl eq_refl)). cbn [bind].
  now rewrite IH by (intros d' Hd'; apply Hall; now right).
Qed.

Lemma patterns_value (duty : Q) (total_frames : Z) :
  0 < m ->
  comprehension
    (fun '(frames_per_cycle, on_frames) =>
       generate_frame_pattern frames_per_cycle on_frames total_frames)
    (map (cycle_of_divisor duty) (range m (m + n)))
  = Ok (map (fun d => pattern_of_cycle total_frames (cycle_of_divisor duty d))
          (range m (m + n))).
Proof.
  intro Hm.
  rewrite (comprehension_map _ (pattern_of_cycle total_frames)).
  - now rewrite map_map.
  - intros [fpc on] Hc. apply in_map_iff in Hc.
    destruct Hc as (d & Hc & Hd). apply In_range in Hd.
    injection Hc as <- <-.
    apply generate_frame_pattern_value. lia.
Qed.

(** The stages of a schedule that was returned. *)
Lemma schedule_returned (duty duration : Double.float)
  (positions : list (Q * Q)) (patterns : list (list Z)) :
  RunFlickerExperimentSsvep.schedule r m n duty duration
  = Ok (positions, patterns) ->
  exists (cycles : list (Z * Z)) (total_frames : Z),
    (0 < r)%Q /\ 0 < m /\ 0 < n /\ m + n <= Qfloor r + 1 /\
    generate_positions n = Ok positions /\
    comprehension
      (fun freq => calculate_cycle_params r (Double.nearest freq) duty)
      (map (fun d => (r / inject_Z d)%Q) (range m (m + n)))
    = Ok cycles /\
    Double.int (Double.mul r duration) = Ok total_frames /\
    comprehension
      (fun '(frames_per_cycle, on_frames) =>
         generate_frame_pattern frames_per_cycle on_frames total_frames)
      cycles
    = Ok patterns.
Proof.
  unfold RunFlickerExperimentSsvep.schedule. intro H.
  destruct (calculate_frequencies r m n) as [freqs|e] eqn:Hf; [|discriminate].
  apply calculate_frequencies_returned in Hf.
  destruct Hf as (Hr & Hm & Hn & Hfl & ->).
  cbn [bind] in H.
  destruct (generate_positions n) as [positions'|e]; [|discriminate].
  cbn [bind] in H.
  destruct (comprehension _ (map _ (range m (m + n)))) as [cycles|e] eqn:Ec;
    [|discriminate].
  cbn [bind] in H.
  destruct (Double.int (Double.mul r duration)) as [total|e] eqn:Et;
    [|discriminate].
  cbn [bind] in H.
  destruct (comprehension _ cycles) as [patterns'|e] eqn:Ep; [|discriminate].
  cbn [bind] in H. injection H as <- <-.
  exists cycles, total. repeat (split; [assumption || reflexivity|]).
  exact Ep.
Qed.

Lemma schedule_value (duty : Q) (duration : Double.float) (total_frames : Z) :
  (0 < r)%Q -> 0 < m -> 0 < n -> (inject_Z n <= divisor_count r m)%Q ->
  (r <= 2 ^ 50)%Q -> (Qabs duty <= 1)%Q ->
  Double.int (Double.mul r duration) = Ok total_frames ->
  exists positions : list (Q * Q),
    generate_positions n = Ok positions /\
    RunFlickerExperimentSsvep.schedule r m n duty duration
    = Ok (positions,
          map (fun d => pattern_of_cycle total_frames (cycle_of_divisor duty d))
            (range m (m + n))).
Proof.
  intros Hr Hm Hn Hle Hr50 Hduty Ht.
  unfold RunFlickerExperimentSsvep.schedule.
  rewrite (calculate_frequencies_value r m n Hr Hm Hn Hle). cbn [bind].
  pose proof (enough_divisors r m n Hle) as Hfl.
  destruct (generate_positions_value n Hn) as (cols & rows & H).
  destruct H as (_ & _ & _ & _ & Hpos). rewrite Hpos. cbn [bind].
  rewrite (cycles_value duty Hm Hfl Hr50 Hduty). cbn [bind].
  rewrite Ht. cbn [bind].
  rewrite (patterns_value duty _ Hm). cbn [bind]. eauto.
Qed.

End Schedule.

(** X18: with valid settings, a refresh rate of at most [2^50], a minimum
    of at least 2 frames per cycle and a duty cycle of magnitude at most
    one, the script's preparation succeeds with one position and one
    pattern per stimulus; the pattern of stimulus [i] has [total_frames]
    frames, the integer part of the double product
    [REFRESH_RATE * DURATION_S], and repeats a cycle of [m + i] frames of
    which the first [on_frames] are ON, with at least one ON and one OFF
    frame in the cycle.  At 60 Hz, 0.7 seconds are 42 frames. *)
Theorem ssvep_schedule
  (r : Q) (m n : Z) (duty : Q) (duration : Double.float) (total_frames : Z) :
  (0 < r)%Q -> 2 <= m -> 0 < n -> (inject_Z n <= r - inject_Z m + 1)%Q ->
  (r <= 2 ^ 50)%Q -> (Qabs duty <= 1)%Q ->
  Double.int (Double.mul r duration) = Ok total_frames ->
  (exists (positions : list (Q * Q)) (patterns : list (list Z)),
     RunFlickerExperimentSsvep.schedule r m n duty duration
     = Ok (positions, patterns) /\
     len positions = n /\ len patterns = n /\
     forall i : Z, 0 <= i < n ->
       exists (pattern : list Z) (on_frames : Z),
         nth_error patterns (Z.to_nat i) = Some pattern /\
         1 <= on_frames < m + i /\
         len pattern = Z.max 0 total_frames /\
         forall j : Z, 0 <= j < total_frames ->
           nth_error pattern (Z.to_nat j)
           = Some (if j mod (m + i) <? on_frames then 1 else 0)) /\
  Double.int (Double.mul 60 (Double.nearest (7 # 10))) = Ok 42.
Proof.
  intros Hr Hm Hn Hle Hr50 Hduty Ht. split; [|vm_compute; reflexivity].
  destruct (schedule_value r m n duty duration total_frames
              Hr ltac:(lia) Hn Hle Hr50 Hduty Ht) as (positions & Hpos & Hp).
  exists positions. eexists. split; [exact Hp|].
  split; [now apply generate_positions_length|]. split.
  - unfold len. rewrite length_map, range_length. lia.
  - intros i Hi.
    exists (pattern_of_cycle total_frames (cycle_of_divisor duty (m + i))),
           (snd (cycle_of_divisor duty (m + i))).
    split.
    + apply (nth_error_map_range
               (fun d => pattern_of_cycle total_frames (cycle_of_divisor duty d))).
      lia.
    + unfold pattern_of_cycle, cycle_of_divisor. cbn [fst snd]. split; [|split].
      * unfold clamp. lia.
      * unfold len. rewrite length_map, range_length. lia.
      * intros j Hj.
        rewrite (nth_error_map_range (frame_value _ _)) by lia.
        reflexivity.
Qed.

Lemma ssvep_schedule_witness :
  exists (positions : list (Q * Q)) (patterns : list (list Z)),
    RunFlickerExperimentSsvep.schedule 60 3 9 (1 # 2) 5 = Ok (positions, patterns) /\
    len positions = 9 /\ len patterns = 9 /\
    exists pattern : list Z,
      nth_error patterns 0 = Some pattern /\ len pattern = 300.
Proof.
  destruct (ssvep_schedule 60 3 9 (1 # 2) 5 300)
    as [(positions & patterns & Hp & Hlen & Hlen' & Hi) _].
  - reflexivity.
  - lia.
  - lia.
  - unfold Qle. simpl. lia.
  - vm_compute. congruence.
  - vm_compute. congruence.
  - vm_compute. reflexivity.
  - exists positions, patterns. repeat (split; [assumption|]).
    destruct (Hi 0 ltac:(lia)) as (pattern & on & Hnth & _ & Hl & _).
    exists pattern. split; assumption.
Defined.

(** The cycle length of a call on a finite rate and frequency, whatever
    the duty cycle. *)
Lemma calculate_cycle_params_length
  (r f q : Q) (duty : Double.float) (frames_per_cycle on_frames : Z) :
  ~ (f == 0)%Q -> Double.nearest (r / f) = Double.Finite q ->
  calculate_cycle_params r f duty = Ok (frames_per_cycle, on_frames) ->
  frames_per_cycle = round q.
Proof.
  intros Hf Hq. unfold calculate_cycle_params, Double.truediv.
  rewrite eqb_float_false by exact Hf. cbn [bind]. rewrite Hq.
  cbn [bind Double.round]. rewrite (of_int_round _ _ Hq). cbn [bind].
  destruct (Double.round _) as [on|]; [|discriminate].
  cbn [bind]. intro H. now injection H as <- _.
Qed.

(** X19: with a minimum of 1 frame per cycle the first stimulus does not
    flicker: whatever the duty cycle, its cycle is a single frame and its
    pattern is ON in every one of its frames, as many as the integer part
    of the double product [REFRESH_RATE * DURATION_S]. *)
Theorem ssvep_first_stimulus_always_on
  (r : Q) (n : Z) (duty duration : Double.float)
  (positions : list (Q * Q)) (patterns : list (list Z)) :
  (r < 2 ^ 1023)%Q ->
  RunFlickerExperimentSsvep.schedule r 1 n duty duration
  = Ok (positions, patterns) ->
  exists (pattern : list Z) (total_frames : Z),
    Double.int (Double.mul r duration) = Ok total_frames /\
    nth_error patterns 0 = Some pattern /\
    len pattern = Z.max 0 total_frames /\
    Forall (fun v => v = 1) pattern.
Proof.
  intros Hr Hp. apply schedule_returned in Hp.
  destruct Hp as (cycles & total & _ & _ & Hn & Hfl & _ & Ec & Et & Ep).
  assert (H1 : (inject_Z 1 <= r)%Q).
  { apply Qle_trans with (inject_Z (Qfloor r)); [|apply Qfloor_le].
    rewrite <- Zle_Qle. lia. }
  destruct (divisor_round_trip r 1 ltac:(lia) H1 Hr)
    as (f & q & Ef & Hf & Eq & Hq).
  destruct (comprehension_nth _ _ cycles 0%nat (r / inject_Z 1)%Q Ec)
    as ([fpc on] & Hc & Hcycle).
  { change 0%nat with (Z.to_nat 0).
    now rewrite (nth_error_map_range (fun d => (r / inject_Z d)%Q)) by lia. }
  rewrite Ef in Hcycle.
  pose proof (calculate_cycle_params_length r f q duty fpc on
                ltac:(intro E; lra) Eq Hcycle) as Hfpc.
  rewrite Hq in Hfpc. subst fpc.
  apply calculate_cycle_params_clamped in Hcycle. destruct Hcycle as [k Hon].
  assert (Hone : on = 1) by (unfold clamp in Hon; lia).
  clear Hon. subst on.
  destruct (comprehension_nth _ _ patterns 0%nat (1, 1) Ep Hc)
    as (pattern & Hpat & Hgen).
  rewrite generate_frame_pattern_value in Hgen by lia.
  injection Hgen as <-.
  eexists. exists total. split; [exact Et|]. split; [exact Hpat|]. split.
  - unfold len. rewrite length_map, range_length. lia.
  - apply Forall_forall. intros v Hv. apply in_map_iff in Hv.
    destruct Hv as (j & <- & _). unfold frame_value.
    now rewrite Z.mod_1_r.
Qed.

Lemma ssvep_first_stimulus_always_on_witness :
  exists (pattern : list Z) (total_frames : Z),
    Double.int (Double.mul 4 1) = Ok total_frames /\
    nth_error [[1; 1; 1; 1]; [1; 0; 1; 0]] 0 = Some pattern /\
    len pattern = Z.max 0 total_frames /\
    Forall (fun v => v = 1) pattern.
Proof.
  apply (ssvep_first_stimulus_always_on 4 2 (1 # 2) 1
           [(-1 # 2, 0 # 2); (1 # 2, 0 # 2)]%Q).
  - apply pow2_lt with (a := 2). lia.
  - vm_compute. reflexivity.
Defined.
